(** * idTFlatMap: a map stored in an array sorted by key (FlatMap.h)

    The development embeds the class template [idTFlatMap] of FlatMap.h.
    The methods are written as programs of a small state-and-error monad
    over the backing array, in the order and with the control flow of the
    C++ text.

    Integers.  All [int] values of the source are modelled in [Z].  The
    only arithmetic is in [FirstGE] (and [pos - 1] in an [assert] of
    [Insert], for a positive [pos]); lemma [FirstGE_no_overflow] shows that
    every value computed there lies between [-1] and [Num() + 1], so that
    no operation leaves the range of [int] as long as [Num()] is smaller
    than [INT_MAX]. *)

From stdpp Require Import base numbers list strings.

Local Open Scope Z_scope.

(** template<class Key, class Value> struct idKeyVal *)
Record idKeyVal (Key Value : Type) : Type := KeyVal { key : Key; value : Value }.
Arguments KeyVal {Key Value} _ _.
Arguments key {Key Value} _.
Arguments value {Key Value} _.

(** struct idLess, at the key type [int]: [a < b]. *)
Definition idLess (a b : Z) : bool := a <? b.

(** The range of [int]. *)
Definition INT_MAX : Z := 2 ^ 31 - 1.
Definition INT_MIN : Z := - 2 ^ 31.
Definition fits_int (z : Z) : Prop := INT_MIN <= z <= INT_MAX.

(** What stops a method before it returns: an access to the backing array
    outside [0, Num()), an [assert] that does not hold, or a read through
    the null pointer. *)
Inductive fault : Type :=
  | OutOfBounds (i : Z)
  | AssertFailed
  | NullDereference.

Inductive outcome (A : Type) : Type :=
  | Done (a : A)
  | Fail (f : fault)
  | OutOfFuel.
Arguments Done {A} _.
Arguments Fail {A} _.
Arguments OutOfFuel {A}.

(** A pointer to an element of the backing array, as returned by [Find]:
    [NULL] or [&container[pos]]. *)
Inductive KeyValPtr : Type :=
  | NULL
  | ElemPtr (pos : Z).

(** An entry of a map from [int] to strings, for the scenarios. *)
Definition kv (k : Z) (s : string) : idKeyVal Z string := KeyVal k s.

(** A sorted map with the keys 1, 3, 5 and 7. *)
Definition sample_map : list (idKeyVal Z string) :=
  [kv 1 "a"; kv 3 "b"; kv 5 "c"; kv 7 "d"].

(** ** The monad: a state (the backing array) and faults *)

Definition M (S A : Type) : Type := S -> outcome (A * S).

Definition ret {S A} (a : A) : M S A := fun c => Done (a, c).

Definition bind {S A B} (m : M S A) (f : A -> M S B) : M S B :=
  fun c =>
    match m c with
    | Done (a, c') => f a c'
    | Fail e => Fail e
    | OutOfFuel => OutOfFuel
    end.

Definition assert {S} (b : bool) : M S unit :=
  fun c => if b then Done (tt, c) else Fail AssertFailed.

Declare Scope flatmap_scope.
Notation "x <- m ;; k" := (bind m (fun x => k))
  (at level 100, m at next level, right associativity) : flatmap_scope.
Notation "m ;; k" := (bind m (fun _ => k))
  (at level 100, k at level 200, right associativity) : flatmap_scope.
Open Scope flatmap_scope.

Module FlatMap.
Section FlatMap.

Context {Key Value : Type}.

(** [Cmp comp], the comparison object of the map. *)
Variable comp : Key -> Key -> bool.

(** [Value()], the default-constructed value. *)
Variable Value_default : Value.

Abbreviation Entry := (idKeyVal Key Value).
Abbreviation Container := (list (idKeyVal Key Value)).

(** ** The backing array *)

(** Modelled from the spec: the backing array ([idList] and the like) is
    not part of FlatMap.h.  The spec asks of it indexed element access,
    insert-one-at-position, remove-one-at-position, the current count,
    reserve, swap and clear.  Only its logical contents are represented;
    an access outside the stored range is a [fault]. *)
Definition container_Num : M Container Z :=
  fun c => Done (Z.of_nat (length c), c).

(** Modelled from the spec: indexed read [container[i]]. *)
Definition container_at (i : Z) : M Container Entry :=
  fun c =>
    if 0 <=? i then
      match c !! Z.to_nat i with
      | Some e => Done (e, c)
      | None => Fail (OutOfBounds i)
      end
    else Fail (OutOfBounds i).

(** Modelled from the spec: indexed write of the value field,
    [container[i].value = v]. *)
Definition container_assign_value (i : Z) (v : Value) : M Container unit :=
  fun c =>
    if 0 <=? i then
      match c !! Z.to_nat i with
      | Some e => Done (tt, <[Z.to_nat i := KeyVal (key e) v]> c)
      | None => Fail (OutOfBounds i)
      end
    else Fail (OutOfBounds i).

(** Modelled from the spec: [container.Insert(obj, pos)] shifts the
    entries at index [>= pos] one slot to the right and stores [obj] at
    [pos]. *)
Definition container_Insert (obj : Entry) (pos : Z) : M Container unit :=
  fun c =>
    if (0 <=? pos) && (pos <=? Z.of_nat (length c)) then
      Done (tt, take (Z.to_nat pos) c ++ obj :: drop (Z.to_nat pos) c)
    else Fail (OutOfBounds pos).

(** Modelled from the spec: [container.RemoveIndex(pos)] removes the
    entry at [pos] and shifts the later ones left by one. *)
Definition container_RemoveIndex (pos : Z) : M Container unit :=
  fun c =>
    if (0 <=? pos) && (pos <? Z.of_nat (length c)) then
      Done (tt, delete (Z.to_nat pos) c)
    else Fail (OutOfBounds pos).

(** Modelled from the spec: [container.Clear(freeBuffer)] empties the
    array; the flag only decides about the capacity. *)
Definition container_Clear (freeBuffer : bool) : M Container unit :=
  fun _ => Done (tt, []).

(** Modelled from the spec: [container.Reserve(count)] changes the
    capacity only. *)
Definition container_Reserve (count : Z) : M Container unit :=
  fun c => Done (tt, c).

(** Modelled from the spec: [container.Swap(other)] exchanges the
    contents; the result is the new contents of [other]. *)
Definition container_Swap (other : Container) : M Container Container :=
  fun c => Done (c, other).

(** ** The methods of idTFlatMap *)

Definition Num : M Container Z := container_Num.

Definition Clear (freeBuffer : bool) : M Container unit := container_Clear freeBuffer.

Definition Reserve (count : Z) : M Container unit := container_Reserve count.

Definition Swap (other : Container) : M Container Container := container_Swap other.

(** One pass through the body of the [while] loop of [FirstGE]:
    from [(pos, span)] to the next [(pos, span)]. *)
Definition FirstGE_iter (k : Key) (pos span : Z) : M Container (Z * Z) :=
  let step := span ≫ 1 in
  e <- container_at (pos + step) ;;
  ret (if comp (key e) k then pos + step else pos, span - step).

(** The index that the pass from [(pos, span)] reads. *)
Definition FirstGE_probe (pos span : Z) : Z := pos + span ≫ 1.

(** [while (span > 1) { ... } return pos + 1;] together with the list of
    the indices [i] at which [comp(container[i].key, key)] has been
    evaluated so far: every pass reads one entry and calls the comparator
    once, on that entry. *)
Fixpoint FirstGE_loop (fuel : nat) (k : Key) (pos span : Z) (probes : list Z)
  : M Container (Z * list Z) :=
  if 1 <? span then
    match fuel with
    | O => fun _ => OutOfFuel
    | S fuel' =>
        ps <- FirstGE_iter k pos span ;;
        FirstGE_loop fuel' k (fst ps) (snd ps)
          (probes ++ [FirstGE_probe pos span])
    end
  else ret (pos + 1, probes).

(** [FirstGE] together with the indices it has read and compared, in
    order. *)
Definition FirstGE_traced (k : Key) : M Container (Z * list Z) :=
  n <- container_Num ;;
  let pos := -1 in
  let span := n + 1 in
  FirstGE_loop (Z.to_nat span) k pos span [].

Definition FirstGE (k : Key) : M Container Z :=
  r <- FirstGE_traced k ;;
  ret (fst r).

(** The three [assert]s of [Insert]; [||] evaluates its right operand
    only when the left one is false. *)
Definition Insert (k : Key) (v : Value) (pos : Z) : M Container unit :=
  n <- container_Num ;;
  assert ((0 <=? pos) && (pos <=? n)) ;;
  a1 <- (if pos =? 0 then ret true
         else e <- container_at (pos - 1) ;; ret (eqb (comp (key e) k) true)) ;;
  assert a1 ;;
  n <- container_Num ;;
  a2 <- (if pos =? n then ret true
         else e <- container_at pos ;; ret (eqb (comp (key e) k) false)) ;;
  assert a2 ;;
  container_Insert (KeyVal k v) pos.

Definition RemoveIndex (pos : Z) : M Container unit := container_RemoveIndex pos.

(** The test [pos < container.Num() && comp(key, container[pos].key) == false]
    that follows the call of [FirstGE] in every method below. *)
Definition is_at (k : Key) (pos : Z) : M Container bool :=
  n <- container_Num ;;
  if pos <? n then
    e <- container_at pos ;;
    ret (eqb (comp k (key e)) false)
  else ret false.

Definition Find (k : Key) : M Container KeyValPtr :=
  pos <- FirstGE k ;;
  here <- is_at k pos ;;
  if here then ret (ElemPtr pos) else ret NULL.

Definition FindIndex (k : Key) : M Container Z :=
  pos <- FirstGE k ;;
  here <- is_at k pos ;;
  if here then ret pos else ret (-1).

Definition Get (k : Key) (default : Value) : M Container Value :=
  pos <- FirstGE k ;;
  here <- is_at k pos ;;
  if here then e <- container_at pos ;; ret (value e) else ret default.

(** [operator[]]: the result is the place of the value, [&container[pos]]. *)
Definition operator_index (k : Key) : M Container KeyValPtr :=
  pos <- FirstGE k ;;
  here <- is_at k pos ;;
  if here then ret (ElemPtr pos)
  else Insert k Value_default pos ;; ret (ElemPtr pos).

(** [if (ppos) *ppos = pos;] where [None] is the null pointer and
    [Some z] a pointer to an [int] that holds [z]. *)
Definition store_pos (ppos : option Z) (pos : Z) : option Z :=
  match ppos with
  | Some _ => Some pos
  | None => None
  end.

Definition Set_ (k : Key) (v : Value) (ppos : option Z) : M Container (bool * option Z) :=
  pos <- FirstGE k ;;
  let ppos := store_pos ppos pos in
  here <- is_at k pos ;;
  if here then container_assign_value pos v ;; ret (false, ppos)
  else Insert k v pos ;; ret (true, ppos).

Definition AddIfNew (k : Key) (v : Value) (ppos : option Z) : M Container (bool * option Z) :=
  pos <- FirstGE k ;;
  let ppos := store_pos ppos pos in
  here <- is_at k pos ;;
  if here then ret (false, ppos)
  else Insert k v pos ;; ret (true, ppos).

Definition Remove (k : Key) (ppos : option Z) : M Container (bool * option Z) :=
  pos <- FirstGE k ;;
  let ppos := store_pos ppos pos in
  here <- is_at k pos ;;
  if here then RemoveIndex pos ;; ret (true, ppos)
  else ret (false, ppos).

(** Reading through a pointer returned by [Find] or [operator[]]. *)
Definition deref (p : KeyValPtr) : M Container Entry :=
  match p with
  | NULL => fun _ => Fail NullDereference
  | ElemPtr pos => container_at pos
  end.

(** ** Vocabulary of the specification *)

(** Two keys compare equal when neither is less than the other. *)
Definition key_equiv (a b : Key) : bool := negb (comp a b) && negb (comp b a).

(** I1: the entries are strictly ascending by key. *)
Definition sorted (c : Container) : Prop :=
  forall i j ei ej, (i < j)%nat -> c !! i = Some ei -> c !! j = Some ej ->
    comp (key ei) (key ej) = true.

Fixpoint sortedb (c : Container) : bool :=
  match c with
  | [] => true
  | e :: c' => forallb (fun e' => comp (key e) (key e')) c' && sortedb c'
  end.

(** The number of entries whose key is strictly less than [k]. *)
Definition count_less (k : Key) (c : Container) : nat :=
  length (List.filter (fun e => comp (key e) k) c).

(** What the specification asks of the comparator: a strict weak
    ordering. *)
Definition comp_irreflexive : Prop := forall a, comp a a = false.

Definition comp_transitive : Prop :=
  forall a b c, comp a b = true -> comp b c = true -> comp a c = true.

Definition equiv_transitive : Prop :=
  forall a b c, key_equiv a b = true -> key_equiv b c = true ->
    key_equiv a c = true.

Record strict_weak_order : Prop := {
  swo_irreflexive : comp_irreflexive;
  swo_transitive : comp_transitive;
  swo_equiv_transitive : equiv_transitive
}.

(** Some entry of [c] has a key that compares equal to [k]. *)
Definition has_key (k : Key) (c : Container) : Prop :=
  exists e, e ∈ c /\ key_equiv (key e) k = true.

(** The test that follows [FirstGE] in every method, at the index that
    [FirstGE] returns on a sorted array. *)
Definition key_found (k : Key) (c : Container) : bool :=
  match c !! count_less k c with
  | Some e => negb (comp k (key e))
  | None => false
  end.

(** The key under which a value for [k] is stored after [Set(k, _)]: the
    key of the entry that the test finds, which [Set] does not touch, and
    [k] itself when the test fails and [Set] inserts. *)
Definition stored_key (k : Key) (c : Container) : Key :=
  match c !! count_less k c with
  | Some e => if negb (comp k (key e)) then key e else k
  | None => k
  end.

(** The value stored for a key that compares equal to [k], as [Find]
    reaches it: the value of the entry at the index of the search when
    the test succeeds. *)
Definition lookup_value (k : Key) (c : Container) : option Value :=
  if key_found k c then value <$> c !! count_less k c else None.

(** The array with [e] put in front of index [i]. *)
Definition insert_at (i : nat) (e : Entry) (c : Container) : Container :=
  take i c ++ e :: drop i c.

(** The array with the value at index [i] replaced by [v]. *)
Definition assign_at (i : nat) (v : Value) (c : Container) : Container :=
  match c !! i with
  | Some e => <[i := KeyVal (key e) v]> c
  | None => c
  end.

(** What the [assert]s of [Insert] check. *)
Definition Insert_pre (k : Key) (pos : Z) (c : Container) : Prop :=
  0 <= pos <= Z.of_nat (length c) /\
  (pos = 0 \/ exists e, c !! Z.to_nat (pos - 1) = Some e /\ comp (key e) k = true) /\
  (pos = Z.of_nat (length c) \/
   exists e, c !! Z.to_nat pos = Some e /\ comp (key e) k = false).

(** The part of the precondition of [Insert] that no [assert] checks: the
    new key is strictly less than the key at [pos], if there is one. *)
Definition Insert_strict (k : Key) (pos : Z) (c : Container) : Prop :=
  forall e, c !! Z.to_nat pos = Some e -> comp k (key e) = true.

(** ** Reachable maps *)

(** The arrays that a sequence of calls of the public methods builds from
    the empty map.  A call counts when it returns, that is, when no
    [assert] stops it and no access leaves the array.  [Insert_ok] is the
    part of the precondition of [Insert] that its [assert]s do not
    check. *)
Inductive reachable_with (Insert_ok : Key -> Z -> Container -> Prop)
  : Container -> Prop :=
  | reach_empty : reachable_with Insert_ok []
  | reach_Num c r c' :
      reachable_with Insert_ok c -> Num c = Done (r, c') ->
      reachable_with Insert_ok c'
  | reach_FirstGE c k r c' :
      reachable_with Insert_ok c -> FirstGE k c = Done (r, c') ->
      reachable_with Insert_ok c'
  | reach_Find c k r c' :
      reachable_with Insert_ok c -> Find k c = Done (r, c') ->
      reachable_with Insert_ok c'
  | reach_FindIndex c k r c' :
      reachable_with Insert_ok c -> FindIndex k c = Done (r, c') ->
      reachable_with Insert_ok c'
  | reach_Get c k default r c' :
      reachable_with Insert_ok c -> Get k default c = Done (r, c') ->
      reachable_with Insert_ok c'
  | reach_Set c k v ppos r c' :
      reachable_with Insert_ok c -> Set_ k v ppos c = Done (r, c') ->
      reachable_with Insert_ok c'
  | reach_AddIfNew c k v ppos r c' :
      reachable_with Insert_ok c -> AddIfNew k v ppos c = Done (r, c') ->
      reachable_with Insert_ok c'
  | reach_operator_index c k r c' :
      reachable_with Insert_ok c -> operator_index k c = Done (r, c') ->
      reachable_with Insert_ok c'
  | reach_Insert c k v pos r c' :
      reachable_with Insert_ok c -> Insert_ok k pos c ->
      Insert k v pos c = Done (r, c') ->
      reachable_with Insert_ok c'
  | reach_Remove c k ppos r c' :
      reachable_with Insert_ok c -> Remove k ppos c = Done (r, c') ->
      reachable_with Insert_ok c'
  | reach_RemoveIndex c pos r c' :
      reachable_with Insert_ok c -> RemoveIndex pos c = Done (r, c') ->
      reachable_with Insert_ok c'
  | reach_Clear c freeBuffer r c' :
      reachable_with Insert_ok c -> Clear freeBuffer c = Done (r, c') ->
      reachable_with Insert_ok c'
  | reach_Reserve c count r c' :
      reachable_with Insert_ok c -> Reserve count c = Done (r, c') ->
      reachable_with Insert_ok c'
  | reach_Swap c other r c' :
      reachable_with Insert_ok c -> reachable_with Insert_ok other ->
      Swap other c = Done (r, c') ->
      reachable_with Insert_ok c'.

(** The reachable maps: every call of [Insert] meets its precondition,
    that is, it passes its [assert]s and the entry at the position, if
    there is one, has a key strictly greater than the new key. *)
Definition reachable_strict : Container -> Prop :=
  reachable_with Insert_strict.

(** The specification's account of the stored values: [history c w] holds
    when a sequence of calls builds [c] from the empty map and [w x] is the
    value most recently [Set] for a key comparing equal to [x], or the
    value the key was inserted with if it was not overwritten since, and
    [None] if no such key was added or the key was removed since. *)
Inductive history : Container -> (Key -> option Value) -> Prop :=
  | hist_empty : history [] (fun _ => None)
  | hist_Set c w k v ppos r c' :
      history c w -> Set_ k v ppos c = Done (r, c') ->
      history c' (fun x => if key_equiv k x then Some v else w x)
  | hist_AddIfNew c w k v ppos r c' :
      history c w -> AddIfNew k v ppos c = Done (r, c') ->
      history c' (fun x => if key_equiv k x
                           then match w x with Some old => Some old | None => Some v end
                           else w x)
  | hist_operator_index c w k r c' :
      history c w -> operator_index k c = Done (r, c') ->
      history c' (fun x => if key_equiv k x
                           then match w x with Some old => Some old | None => Some Value_default end
                           else w x)
  | hist_Insert c w k v pos r c' :
      history c w -> Insert_strict k pos c ->
      Insert k v pos c = Done (r, c') ->
      history c' (fun x => if key_equiv k x then Some v else w x)
  | hist_Remove c w k ppos r c' :
      history c w -> Remove k ppos c = Done (r, c') ->
      history c' (fun x => if key_equiv k x then None else w x)
  | hist_RemoveIndex c w pos e r c' :
      history c w -> c !! Z.to_nat pos = Some e ->
      RemoveIndex pos c = Done (r, c') ->
      history c' (fun x => if key_equiv (key e) x then None else w x)
  | hist_Clear c w freeBuffer r c' :
      history c w -> Clear freeBuffer c = Done (r, c') ->
      history c' (fun _ => None)
  | hist_Reserve c w count r c' :
      history c w -> Reserve count c = Done (r, c') ->
      history c' w
  | hist_Swap c w other w' r c' :
      history c w -> history other w' -> Swap other c = Done (r, c') ->
      history c' w'.

(** ** Sortedness *)

Lemma sorted_nil : sorted [].
Proof. intros i j ei ej _ H. rewrite lookup_nil in H. discriminate. Qed.

Lemma sorted_cons e c :
  sorted (e :: c) <->
  (forall e', e' ∈ c -> comp (key e) (key e') = true) /\ sorted c.
Proof.
  split.
  - intros Hs. split.
    + intros e' [j Hj]%list_elem_of_lookup.
      apply (Hs 0%nat (S j) e e'); [lia | reflexivity | exact Hj].
    + intros i j ei ej Hij Hi Hj.
      apply (Hs (S i) (S j) ei ej); [lia | exact Hi | exact Hj].
  - intros [Hhd Htl] i j ei ej Hij Hi Hj.
    destruct j as [|j]; [lia|]. simpl in Hj.
    destruct i as [|i]; simpl in Hi.
    + injection Hi as <-. apply Hhd, list_elem_of_lookup. eauto.
    + apply (Htl i j); [lia | exact Hi | exact Hj].
Qed.

Lemma sortedb_spec c : sortedb c = true <-> sorted c.
Proof.
  induction c as [|e c IH]; simpl.
  - split; [intros _; apply sorted_nil | reflexivity].
  - rewrite andb_true_iff, IH, sorted_cons, forallb_forall.
    split; intros [H1 H2]; (split; [|exact H2]); intros e' He'; apply H1.
    + apply list_elem_of_In, He'.
    + apply list_elem_of_In, He'.
Qed.

(** ** Counting the smaller keys *)

Lemma count_less_cons k e c :
  count_less k (e :: c) =
  ((if comp (key e) k then 1 else 0) + count_less k c)%nat.
Proof. unfold count_less. simpl. destruct (comp (key e) k); reflexivity. Qed.

Lemma count_less_le_length k c : (count_less k c <= length c)%nat.
Proof.
  induction c as [|e c IH]; [reflexivity|].
  rewrite count_less_cons. simpl. destruct (comp (key e) k); lia.
Qed.

Lemma count_less_none k c :
  (forall e, e ∈ c -> comp (key e) k = false) -> count_less k c = 0%nat.
Proof.
  induction c as [|e c IH]; intros H; [reflexivity|].
  rewrite count_less_cons, (H e), IH; [reflexivity | | left].
  intros e' He'. apply H. right. exact He'.
Qed.

(** In a sorted array the keys smaller than [k] are exactly those of the
    first [count_less k c] entries. *)
Lemma less_iff_before_count k c i e :
  comp_transitive -> sorted c -> c !! i = Some e ->
  comp (key e) k = true <-> (i < count_less k c)%nat.
Proof.
  intros Htrans. revert i. induction c as [|e0 c IH]; intros i Hs Hi.
  - rewrite lookup_nil in Hi. discriminate.
  - apply sorted_cons in Hs as [Hhd Htl]. rewrite count_less_cons.
    destruct (comp (key e0) k) eqn:E0.
    + destruct i as [|i]; simpl in Hi.
      * injection Hi as <-. rewrite E0. split; [lia | reflexivity].
      * rewrite (IH i Htl Hi). lia.
    + assert (Hnone : forall e', e' ∈ c -> comp (key e') k = false).
      { intros e' He'. destruct (comp (key e') k) eqn:E'; [|reflexivity].
        rewrite <- E0. symmetry. apply (Htrans _ (key e')); [apply Hhd, He' | exact E']. }
      rewrite (count_less_none _ _ Hnone). simpl.
      destruct i as [|i]; simpl in Hi.
      * injection Hi as <-. rewrite E0. split; [discriminate | lia].
      * rewrite (Hnone e); [split; [discriminate | lia]|].
        apply list_elem_of_lookup. eauto.
Qed.

(** ** The binary search *)

Lemma shiftr_1_bounds span : 1 < span -> 1 <= span ≫ 1 /\ span ≫ 1 <= span - span ≫ 1 < span.
Proof.
  intros H. rewrite Z.shiftr_div_pow2 by lia. change (2 ^ 1) with 2.
  pose proof (Z.div_mod span 2 ltac:(lia)).
  pose proof (Z.mod_pos_bound span 2 ltac:(lia)). lia.
Qed.

(** Halving the span, rounded up, takes one from its binary logarithm,
    rounded up. *)
Lemma log2_up_half span :
  1 < span -> Z.log2_up (span - span ≫ 1) = Z.log2_up span - 1.
Proof.
  intros H. rewrite Z.shiftr_div_pow2 by lia. change (2 ^ 1) with 2.
  pose proof (Z.div_mod span 2 ltac:(lia)) as Hdm.
  pose proof (Z.mod_pos_bound span 2 ltac:(lia)) as Hm.
  pose proof (Z.log2_up_spec span H) as [Hlo Hhi].
  pose proof (Z.log2_up_nonneg span) as Hnn.
  destruct (decide (span = 2)) as [->|Hne]; [reflexivity|].
  set (L := Z.log2_up span) in *.
  assert (HL : 2 <= L).
  { destruct (decide (2 <= L)) as [|Hn]; [assumption|].
    assert (L = 0 \/ L = 1) as [E|E] by lia; rewrite E in Hhi; simpl in Hhi; lia. }
  assert (E1 : 2 ^ (L - 1) = 2 * 2 ^ (L - 2)).
  { rewrite <- Z.pow_succ_r by lia. f_equal. lia. }
  assert (E2 : 2 ^ L = 2 * 2 ^ (L - 1)).
  { rewrite <- Z.pow_succ_r by lia. f_equal. lia. }
  replace (Z.pred L) with (L - 1) in Hlo by lia.
  apply Z.log2_up_unique; [lia|].
  replace (Z.pred (L - 1)) with (L - 2) by lia.
  lia.
Qed.

Lemma container_at_lookup (c : Container) i e :
  0 <= i -> c !! Z.to_nat i = Some e -> container_at i c = Done (e, c).
Proof.
  intros Hi He. unfold container_at.
  destruct (Z.leb_spec 0 i); [|lia]. rewrite He. reflexivity.
Qed.

Lemma container_at_inv (c : Container) i e c' :
  container_at i c = Done (e, c') ->
  0 <= i < Z.of_nat (length c) /\ c !! Z.to_nat i = Some e /\ c' = c.
Proof.
  unfold container_at. destruct (Z.leb_spec 0 i); [|discriminate].
  destruct (c !! Z.to_nat i) as [e0|] eqn:E; [|discriminate].
  intros [= <- <-]. apply lookup_lt_Some in E as Hlt.
  split; [lia|]. split; [auto | reflexivity].
Qed.

(** One pass of the loop reads inside the array, keeps the array, and
    keeps the loop's invariant [-1 <= pos], [1 <= span],
    [pos + span <= Num()] with a smaller span. *)
Lemma FirstGE_iter_total k (c : Container) pos span :
  -1 <= pos -> 1 < span -> pos + span <= Z.of_nat (length c) ->
  exists e,
    c !! Z.to_nat (FirstGE_probe pos span) = Some e /\
    0 <= FirstGE_probe pos span < Z.of_nat (length c) /\
    FirstGE_iter k pos span c =
      Done ((if comp (key e) k then FirstGE_probe pos span else pos,
             span - span ≫ 1), c).
Proof.
  intros Hpos Hspan Hend. pose proof (shiftr_1_bounds span Hspan) as Hstep.
  unfold FirstGE_probe.
  destruct (lookup_lt_is_Some_2 c (Z.to_nat (pos + span ≫ 1))) as [e He]; [lia|].
  exists e. split; [exact He|]. split; [lia|].
  unfold FirstGE_iter, bind. rewrite (container_at_lookup c _ e) by (lia || exact He).
  reflexivity.
Qed.

(** The loop, started inside its invariant with fuel for [span] passes:
    it returns, it keeps the array, every index it reads is inside the
    array, the number of passes is the binary logarithm of the span,
    rounded up, and on a sorted array the result is the number of smaller
    keys. *)
Lemma FirstGE_loop_total fuel k (c : Container) : forall pos span probes,
  -1 <= pos -> 1 <= span -> pos + span <= Z.of_nat (length c) ->
  (Z.to_nat span <= fuel)%nat ->
  exists r new,
    FirstGE_loop fuel k pos span probes c = Done ((r, probes ++ new), c) /\
    pos + 1 <= r <= pos + span /\
    Forall (fun i => 0 <= i < Z.of_nat (length c)) new /\
    Z.of_nat (length new) = Z.log2_up span /\
    (comp_transitive -> sorted c ->
     pos < Z.of_nat (count_less k c) <= pos + span ->
     r = Z.of_nat (count_less k c)).
Proof.
  induction fuel as [|fuel IH]; intros pos span probes Hpos Hspan Hend Hfuel;
    simpl; destruct (Z.ltb_spec 1 span) as [Hlt|Hge]; try lia.
  - destruct (FirstGE_iter_total k c pos span Hpos Hlt Hend)
      as (e & He & Hrange & Hiter).
    pose proof (shiftr_1_bounds span Hlt) as Hstep.
    unfold bind. rewrite Hiter. cbn [fst snd].
    unfold FirstGE_probe in *.
    destruct (IH (if comp (key e) k then pos + span ≫ 1 else pos)
                 (span - span ≫ 1) (probes ++ [pos + span ≫ 1]))
      as (r & new & Hrun & Hr & Hnew & Hlen & Hsorted);
      try (destruct (comp (key e) k); lia).
    exists r, ((pos + span ≫ 1) :: new).
    split; [rewrite Hrun, <- app_assoc; reflexivity|].
    split; [destruct (comp (key e) k); lia|].
    split; [constructor; [lia | exact Hnew]|].
    split; [rewrite log2_up_half in Hlen by exact Hlt; simpl length; lia|].
    intros Htrans Hs Hp. apply Hsorted; [exact Htrans | exact Hs |].
    pose proof (less_iff_before_count k c _ e Htrans Hs He) as Hiff.
    destruct (comp (key e) k).
    + assert (Z.to_nat (pos + span ≫ 1) < count_less k c)%nat by (apply Hiff; reflexivity).
      lia.
    + assert (~ (Z.to_nat (pos + span ≫ 1) < count_less k c)%nat)
        by (intros Hc; apply Hiff in Hc; discriminate).
      lia.
  - exists (pos + 1), []. rewrite app_nil_r.
    split; [reflexivity|]. split; [lia|]. split; [constructor|].
    split; [replace span with 1 by lia; reflexivity|]. intros _ _ ?. lia.
Qed.

(** [FirstGE] returns on every array, leaves it as it is, answers in
    [0, Num()] and reads only inside the array, once for each of its
    [log2_up (Num() + 1)] comparisons. *)
Lemma FirstGE_traced_total k (c : Container) :
  exists r probes,
    FirstGE_traced k c = Done ((r, probes), c) /\
    0 <= r <= Z.of_nat (length c) /\
    Forall (fun i => 0 <= i < Z.of_nat (length c)) probes /\
    Z.of_nat (length probes) = Z.log2_up (Z.of_nat (length c) + 1) /\
    (comp_transitive -> sorted c -> r = Z.of_nat (count_less k c)).
Proof.
  unfold FirstGE_traced, bind, container_Num.
  destruct (FirstGE_loop_total (Z.to_nat (Z.of_nat (length c) + 1)) k c
              (-1) (Z.of_nat (length c) + 1) []) as (r & new & Hrun & Hr & Hnew & Hlen & Hs);
    try lia.
  exists r, new. split; [exact Hrun|]. split; [lia|]. split; [exact Hnew|].
  split; [exact Hlen|]. intros Htrans Hsorted. apply Hs; [exact Htrans | exact Hsorted |].
  pose proof (count_less_le_length k c). lia.
Qed.

(** On a sorted array [FirstGE] is the number of smaller keys. *)
Lemma FirstGE_sorted k (c : Container) :
  comp_transitive -> sorted c ->
  FirstGE k c = Done (Z.of_nat (count_less k c), c).
Proof.
  intros Htrans Hs.
  destruct (FirstGE_traced_total k c) as (r & probes & Hrun & _ & _ & _ & Hr).
  unfold FirstGE, bind. rewrite Hrun. rewrite (Hr Htrans Hs). reflexivity.
Qed.

(** ** The test after the search *)

Lemma is_at_run k (c : Container) pos :
  0 <= pos ->
  is_at k pos c =
    Done (match c !! Z.to_nat pos with
          | Some e => negb (comp k (key e))
          | None => false
          end, c).
Proof.
  intros Hpos. unfold is_at, bind, container_Num.
  destruct (Z.ltb_spec pos (Z.of_nat (length c))) as [Hlt|Hge].
  - destruct (lookup_lt_is_Some_2 c (Z.to_nat pos)) as [e He]; [lia|].
    rewrite (container_at_lookup c pos e Hpos He), He. unfold ret.
    destruct (comp k (key e)); reflexivity.
  - rewrite (lookup_ge_None_2 c (Z.to_nat pos)) by lia. reflexivity.
Qed.

(** The common prefix of the methods: search, then test. *)
Lemma locate_run {A} k (c : Container) (f : Z -> bool -> M Container A) :
  comp_transitive -> sorted c ->
  (pos <- FirstGE k ;; here <- is_at k pos ;; f pos here) c =
  f (Z.of_nat (count_less k c)) (key_found k c) c.
Proof.
  intros Htrans Hs. unfold bind at 1. rewrite (FirstGE_sorted k c Htrans Hs).
  unfold bind. rewrite is_at_run by lia. rewrite Nat2Z.id. reflexivity.
Qed.

Lemma key_equiv_true a b :
  key_equiv a b = true <-> comp a b = false /\ comp b a = false.
Proof.
  unfold key_equiv. destruct (comp a b), (comp b a); simpl; intuition congruence.
Qed.

Lemma key_equiv_sym a b : key_equiv a b = key_equiv b a.
Proof. unfold key_equiv. apply andb_comm. Qed.

(** The test succeeds exactly when some entry compares equal to [k];
    the entry at the index of the search is then such an entry. *)
Lemma key_found_at k (c : Container) :
  comp_transitive -> sorted c ->
  key_found k c = true <->
  exists e, c !! count_less k c = Some e /\ key_equiv (key e) k = true.
Proof.
  intros Htrans Hs. unfold key_found. split.
  - destruct (c !! count_less k c) as [e|] eqn:He; [|discriminate].
    intros Hk. exists e. split; [reflexivity|]. apply key_equiv_true.
    split; [|destruct (comp k (key e)); [discriminate | reflexivity]].
    destruct (comp (key e) k) eqn:E; [|reflexivity].
    apply (less_iff_before_count k c _ e Htrans Hs He) in E. lia.
  - intros (e & -> & [_ ->]%key_equiv_true). reflexivity.
Qed.

Lemma key_found_has_key k (c : Container) :
  comp_transitive -> sorted c ->
  key_found k c = true <-> has_key k c.
Proof.
  intros Htrans Hs. rewrite (key_found_at k c Htrans Hs). split.
  - intros (e & He & Heq). exists e. split; [|exact Heq].
    apply list_elem_of_lookup. eauto.
  - intros (e & [i Hi]%list_elem_of_lookup & [Hek Hke]%key_equiv_true).
    assert (Hpi : (count_less k c <= i)%nat).
    { destruct (Nat.le_gt_cases (count_less k c) i) as [|Hlt]; [assumption|].
      apply (less_iff_before_count k c i e Htrans Hs Hi) in Hlt. congruence. }
    destruct (lookup_lt_is_Some_2 c (count_less k c)) as [ep Hp].
    { apply lookup_lt_Some in Hi. lia. }
    exists ep. split; [exact Hp|]. apply key_equiv_true. split.
    + destruct (comp (key ep) k) eqn:E; [|reflexivity].
      apply (less_iff_before_count k c _ ep Htrans Hs Hp) in E. lia.
    + destruct (comp k (key ep)) eqn:E; [|reflexivity].
      destruct (decide (count_less k c = i)) as [Heq|Hne].
      * rewrite Heq, Hi in Hp. injection Hp as <-. congruence.
      * rewrite <- Hke. symmetry. apply (Htrans _ (key ep)); [exact E|].
        apply (Hs (count_less k c) i); [lia | exact Hp | exact Hi].
Qed.

(** Under a strict weak ordering an entry that compares equal to [k]
    can only be at the index of the search. *)
Lemma equiv_entry_index k (c : Container) i e :
  strict_weak_order -> sorted c ->
  c !! i = Some e -> key_equiv (key e) k = true -> i = count_less k c.
Proof.
  intros [Hirr Htrans Heqv] Hs Hi Heq.
  assert (Hfound : key_found k c = true).
  { apply key_found_has_key; [exact Htrans | exact Hs |].
    exists e. split; [apply list_elem_of_lookup; eauto | exact Heq]. }
  apply key_found_at in Hfound as (ep & Hp & Hpeq); [|exact Htrans|exact Hs].
  assert (Hee : key_equiv (key ep) (key e) = true).
  { apply (Heqv _ k); [exact Hpeq | rewrite key_equiv_sym; exact Heq]. }
  apply key_equiv_true in Hee as [H1 H2].
  destruct (Nat.lt_trichotomy i (count_less k c)) as [Hlt|[Heq'|Hgt]].
  - rewrite (Hs i (count_less k c) e ep Hlt Hi Hp) in H2. discriminate.
  - exact Heq'.
  - rewrite (Hs (count_less k c) i ep e Hgt Hp Hi) in H1. discriminate.
Qed.

(** ** Positioned insertion *)

Lemma Insert_inv k v pos (c : Container) u c' :
  Insert k v pos c = Done (u, c') ->
  Insert_pre k pos c /\ c' = insert_at (Z.to_nat pos) (KeyVal k v) c.
Proof.
  unfold Insert, Insert_pre, bind, container_Num, assert, ret.
  destruct ((0 <=? pos) && (pos <=? Z.of_nat (length c))) eqn:Hrange; [|discriminate].
  apply andb_true_iff in Hrange as [H0%Z.leb_le Hn%Z.leb_le].
  destruct (Z.eqb_spec pos 0) as [Hz|Hnz].
  - destruct (Z.eqb_spec pos (Z.of_nat (length c))) as [He|Hne].
    + unfold container_Insert. intros H.
      destruct ((0 <=? pos) && (pos <=? Z.of_nat (length c))); [|discriminate].
      injection H as _ <-. split; [|reflexivity]. split; [lia|]. split; left; assumption.
    + destruct (container_at pos c) as [[e c1]|f|] eqn:Eat; [|discriminate..].
      apply container_at_inv in Eat as (_ & He & ->).
      destruct (comp (key e) k) eqn:E; simpl; [discriminate|].
      unfold container_Insert. intros H.
      destruct ((0 <=? pos) && (pos <=? Z.of_nat (length c))); [|discriminate].
      injection H as _ <-. split; [|reflexivity]. split; [lia|].
      split; [left; assumption | right; eauto].
  - destruct (container_at (pos - 1) c) as [[e1 c1]|f|] eqn:Eat1; [|discriminate..].
    apply container_at_inv in Eat1 as (_ & He1 & ->).
    destruct (comp (key e1) k) eqn:E1; simpl; [|discriminate].
    destruct (Z.eqb_spec pos (Z.of_nat (length c))) as [He|Hne].
    + unfold container_Insert. intros H.
      destruct ((0 <=? pos) && (pos <=? Z.of_nat (length c))); [|discriminate].
      injection H as _ <-. split; [|reflexivity]. split; [lia|].
      split; [right; eauto | left; assumption].
    + destruct (container_at pos c) as [[e c1]|f|] eqn:Eat; [|discriminate..].
      apply container_at_inv in Eat as (_ & He & ->).
      destruct (comp (key e) k) eqn:E; simpl; [discriminate|].
      unfold container_Insert. intros H.
      destruct ((0 <=? pos) && (pos <=? Z.of_nat (length c))); [|discriminate].
      injection H as _ <-. split; [|reflexivity]. split; [lia|].
      split; right; eauto.
Qed.

Lemma Insert_done k v pos (c : Container) :
  Insert_pre k pos c ->
  Insert k v pos c = Done (tt, insert_at (Z.to_nat pos) (KeyVal k v) c).
Proof.
  intros (Hrange & Hbefore & Hat).
  unfold Insert, bind, container_Num, assert, ret, container_Insert.
  assert (Hr : (0 <=? pos) && (pos <=? Z.of_nat (length c)) = true).
  { apply andb_true_iff. split; apply Z.leb_le; lia. }
  rewrite Hr.
  destruct (Z.eqb_spec pos 0) as [Hz|Hnz].
  - destruct (Z.eqb_spec pos (Z.of_nat (length c))) as [He|Hne].
    + rewrite Hr. reflexivity.
    + destruct Hat as [?|(e & He & Hc)]; [contradiction|].
      rewrite (container_at_lookup c pos e) by (lia || exact He).
      rewrite Hc. simpl. rewrite Hr. reflexivity.
  - destruct Hbefore as [?|(e1 & He1 & Hc1)]; [contradiction|].
    rewrite (container_at_lookup c (pos - 1) e1) by (lia || exact He1).
    rewrite Hc1. simpl.
    destruct (Z.eqb_spec pos (Z.of_nat (length c))) as [He|Hne].
    + rewrite Hr. reflexivity.
    + destruct Hat as [?|(e & He & Hc)]; [contradiction|].
      rewrite (container_at_lookup c pos e) by (lia || exact He).
      rewrite Hc. simpl. rewrite Hr. reflexivity.
Qed.

(** [Insert] stops only at one of its [assert]s. *)
Lemma Insert_outcome k v pos (c : Container) :
  (Insert_pre k pos c /\
   Insert k v pos c = Done (tt, insert_at (Z.to_nat pos) (KeyVal k v) c)) \/
  (~ Insert_pre k pos c /\ Insert k v pos c = Fail AssertFailed).
Proof.
  destruct (Insert k v pos c) as [[u c']|f|] eqn:E.
  - left. apply Insert_inv in E as [Hpre ->]. split; [exact Hpre|].
    destruct u. reflexivity.
  - right. split.
    + intros Hpre. rewrite (Insert_done k v pos c Hpre) in E. discriminate.
    + revert E. unfold Insert, bind, container_Num, assert, ret, container_Insert.
      destruct ((0 <=? pos) && (pos <=? Z.of_nat (length c))) eqn:Hrange;
        [|intros [= <-]; reflexivity].
      pose proof Hrange as Hr.
      apply andb_true_iff in Hrange as [H0%Z.leb_le Hn%Z.leb_le].
      assert (Hat : forall i, 0 <= i < Z.of_nat (length c) ->
                exists e, container_at i c = Done (e, c)).
      { intros i Hi. destruct (lookup_lt_is_Some_2 c (Z.to_nat i)) as [e He]; [lia|].
        exists e. apply container_at_lookup; [lia | exact He]. }
      destruct (Z.eqb_spec pos 0) as [Hz|Hnz].
      * destruct (Z.eqb_spec pos (Z.of_nat (length c))) as [He|Hne]; [simpl; rewrite Hr; discriminate|].
        destruct (Hat pos) as [e ->]; [lia|].
        destruct (comp (key e) k); simpl; [intros [= <-]; reflexivity | rewrite Hr; discriminate].
      * destruct (Hat (pos - 1)) as [e1 ->]; [lia|].
        destruct (comp (key e1) k); simpl; [|intros [= <-]; reflexivity].
        destruct (Z.eqb_spec pos (Z.of_nat (length c))) as [He|Hne]; [simpl; rewrite Hr; discriminate|].
        destruct (Hat pos) as [e ->]; [lia|].
        destruct (comp (key e) k); simpl; [intros [= <-]; reflexivity | rewrite Hr; discriminate].
  - exfalso. revert E.
    unfold Insert, bind, container_Num, assert, ret, container_Insert, container_at.
    repeat match goal with
           | |- context [if ?b then _ else _] => destruct b
           | |- context [match ?o with Some _ => _ | None => _ end] => destruct o
           end; simpl; discriminate.
Qed.

(** ** Sortedness of the changed arrays *)

Lemma sorted_app (l1 l2 : Container) :
  sorted (l1 ++ l2) <->
  sorted l1 /\ sorted l2 /\
  (forall a b, a ∈ l1 -> b ∈ l2 -> comp (key a) (key b) = true).
Proof.
  induction l1 as [|e l1 IH]; simpl.
  - split.
    + intros H. split; [apply sorted_nil|]. split; [exact H|].
      intros a b Ha. apply elem_of_nil in Ha. contradiction.
    + intros (_ & H & _). exact H.
  - rewrite !sorted_cons, IH. split.
    + intros (Hhd & H1 & H2 & Hx). split; [split; [|exact H1]|split; [exact H2|]].
      * intros e' He'. apply Hhd, elem_of_app. left. exact He'.
      * intros a b [->|Ha]%elem_of_cons Hb.
        -- apply Hhd, elem_of_app. right. exact Hb.
        -- apply Hx; assumption.
    + intros ([Hhd H1] & H2 & Hx). split; [|split; [exact H1|split; [exact H2|]]].
      * intros e' [He'|He']%elem_of_app; [apply Hhd, He'|].
        apply Hx; [left | exact He'].
      * intros a b Ha Hb. apply Hx; [right; exact Ha | exact Hb].
Qed.

Lemma sorted_insert_at k v pos (c : Container) :
  comp_transitive -> sorted c -> Insert_pre k pos c -> Insert_strict k pos c ->
  sorted (insert_at (Z.to_nat pos) (KeyVal k v) c).
Proof.
  intros Htrans Hs (Hrange & Hbefore & _) Hstrict. unfold insert_at.
  set (n := Z.to_nat pos).
  assert (Hbelow : forall a, a ∈ take n c -> comp (key a) k = true).
  { intros a [i Hi]%list_elem_of_lookup.
    apply lookup_take_Some in Hi as [Hi Hin].
    destruct Hbefore as [?|(e1 & He1 & Hc1)]; [lia|].
    destruct (decide (i = Z.to_nat (pos - 1))) as [->|Hne].
    - rewrite He1 in Hi. injection Hi as <-. exact Hc1.
    - apply (Htrans _ (key e1)); [|exact Hc1].
      apply (Hs i (Z.to_nat (pos - 1))); [lia | exact Hi | exact He1]. }
  assert (Habove : forall b, b ∈ drop n c -> comp k (key b) = true).
  { intros b [j Hj]%list_elem_of_lookup. rewrite lookup_drop in Hj.
    destruct (lookup_lt_is_Some_2 c n) as [e He].
    { apply lookup_lt_Some in Hj. lia. }
    pose proof (Hstrict e He) as Hke.
    destruct j as [|j].
    - rewrite Nat.add_0_r, He in Hj. injection Hj as <-. exact Hke.
    - apply (Htrans _ (key e)); [exact Hke|].
      apply (Hs n (n + S j)%nat); [lia | exact He | exact Hj]. }
  rewrite <- (take_drop n c) in Hs.
  apply sorted_app in Hs as (H1 & H2 & Hx).
  apply sorted_app. split; [exact H1|]. split.
  - apply sorted_cons. split; [|exact H2]. exact Habove.
  - intros a b Ha [->|Hb]%elem_of_cons.
    + apply Hbelow, Ha.
    + apply Hx; assumption.
Qed.

Lemma sorted_delete i (c : Container) : sorted c -> sorted (delete i c).
Proof.
  intros Hs j1 j2 e1 e2 Hj H1 H2.
  rewrite list_lookup_delete in H1, H2.
  repeat case_decide;
    match goal with
    | H1 : c !! ?a = Some e1, H2 : c !! ?b = Some e2 |- _ =>
        apply (Hs a b); [lia | exact H1 | exact H2]
    end.
Qed.

Lemma sorted_same_keys (c c' : Container) :
  (forall j, key <$> c' !! j = key <$> c !! j) -> sorted c -> sorted c'.
Proof.
  intros Hk Hs i j ei ej Hij Hi Hj.
  pose proof (Hk i) as Ki. pose proof (Hk j) as Kj.
  rewrite Hi in Ki. rewrite Hj in Kj. simpl in Ki, Kj.
  destruct (c !! i) as [ei0|] eqn:Ei; [|discriminate].
  destruct (c !! j) as [ej0|] eqn:Ej; [|discriminate].
  simpl in Ki, Kj. injection Ki as ->. injection Kj as ->.
  apply (Hs i j); [exact Hij | exact Ei | exact Ej].
Qed.

Lemma sorted_assign_value i e v (c : Container) :
  c !! i = Some e -> sorted c -> sorted (<[i := KeyVal (key e) v]> c).
Proof.
  intros He. apply sorted_same_keys. intros j.
  destruct (decide (i = j)) as [<-|Hne].
  - rewrite list_lookup_insert_eq by (apply lookup_lt_Some in He; exact He).
    rewrite He. reflexivity.
  - rewrite list_lookup_insert_ne by exact Hne. reflexivity.
Qed.

(** The index of the search satisfies the [assert]s of [Insert]. *)
Lemma Insert_pre_at_count k (c : Container) :
  comp_transitive -> sorted c -> Insert_pre k (Z.of_nat (count_less k c)) c.
Proof.
  intros Htrans Hs. pose proof (count_less_le_length k c) as Hle.
  split; [lia|]. split.
  - destruct (count_less k c) as [|p] eqn:Ep; [left; reflexivity|]. right.
    destruct (lookup_lt_is_Some_2 c p) as [e He]; [lia|]. exists e.
    replace (Z.to_nat (Z.of_nat (S p) - 1)) with p by lia. split; [exact He|].
    apply (less_iff_before_count k c p e Htrans Hs He). lia.
  - destruct (decide (count_less k c = length c)) as [Heq|Hne]; [left; lia|]. right.
    destruct (lookup_lt_is_Some_2 c (count_less k c)) as [e He]; [lia|]. exists e.
    rewrite Nat2Z.id. split; [exact He|].
    destruct (comp (key e) k) eqn:E; [|reflexivity].
    apply (less_iff_before_count k c _ e Htrans Hs He) in E. lia.
Qed.

Lemma Insert_strict_at_count k (c : Container) :
  key_found k c = false -> Insert_strict k (Z.of_nat (count_less k c)) c.
Proof.
  unfold key_found, Insert_strict. rewrite Nat2Z.id. intros Hnf e He.
  rewrite He in Hnf. destruct (comp k (key e)); [reflexivity | discriminate].
Qed.

(** ** What each method computes on a sorted array *)

Section Runs.

Hypothesis Htrans : comp_transitive.
Variable c : Container.
Hypothesis Hs : sorted c.
Variable k : Key.

Lemma Find_run :
  Find k c =
  Done (if key_found k c then ElemPtr (Z.of_nat (count_less k c)) else NULL, c).
Proof.
  unfold Find. rewrite locate_run by assumption.
  destruct (key_found k c); reflexivity.
Qed.

Lemma FindIndex_run :
  FindIndex k c =
  Done (if key_found k c then Z.of_nat (count_less k c) else -1, c).
Proof.
  unfold FindIndex. rewrite locate_run by assumption.
  destruct (key_found k c); reflexivity.
Qed.

Lemma Get_run default :
  Get k default c =
  Done (match c !! count_less k c with
        | Some e => if key_found k c then value e else default
        | None => default
        end, c).
Proof.
  unfold Get. rewrite locate_run by assumption.
  unfold key_found. destruct (c !! count_less k c) as [e|] eqn:He; [|reflexivity].
  destruct (comp k (key e)); simpl; [reflexivity|].
  unfold bind. rewrite (container_at_lookup c _ e) by (lia || rewrite Nat2Z.id; exact He).
  reflexivity.
Qed.

Lemma Insert_at_count_run v :
  key_found k c = false ->
  Insert k v (Z.of_nat (count_less k c)) c =
  Done (tt, insert_at (count_less k c) (KeyVal k v) c).
Proof.
  intros _. rewrite Insert_done by (apply Insert_pre_at_count; assumption).
  rewrite Nat2Z.id. reflexivity.
Qed.

Lemma Set_run v ppos :
  Set_ k v ppos c =
  Done ((negb (key_found k c), store_pos ppos (Z.of_nat (count_less k c))),
        if key_found k c then assign_at (count_less k c) v c
        else insert_at (count_less k c) (KeyVal k v) c).
Proof.
  unfold Set_. rewrite locate_run by assumption.
  destruct (key_found k c) eqn:Hf.
  - unfold bind, container_assign_value, assign_at. rewrite Nat2Z.id.
    destruct (Z.leb_spec 0 (Z.of_nat (count_less k c))); [|lia].
    unfold key_found in Hf.
    destruct (c !! count_less k c); [reflexivity | discriminate].
  - unfold bind. rewrite Insert_at_count_run by exact Hf. reflexivity.
Qed.

Lemma AddIfNew_run v ppos :
  AddIfNew k v ppos c =
  Done ((negb (key_found k c), store_pos ppos (Z.of_nat (count_less k c))),
        if key_found k c then c
        else insert_at (count_less k c) (KeyVal k v) c).
Proof.
  unfold AddIfNew. rewrite locate_run by assumption.
  destruct (key_found k c) eqn:Hf; [reflexivity|].
  unfold bind. rewrite Insert_at_count_run by exact Hf. reflexivity.
Qed.

Lemma operator_index_run :
  operator_index k c =
  Done (ElemPtr (Z.of_nat (count_less k c)),
        if key_found k c then c
        else insert_at (count_less k c) (KeyVal k Value_default) c).
Proof.
  unfold operator_index. rewrite locate_run by assumption.
  destruct (key_found k c) eqn:Hf; [reflexivity|].
  unfold bind. rewrite Insert_at_count_run by exact Hf. reflexivity.
Qed.

Lemma Remove_run ppos :
  Remove k ppos c =
  Done ((key_found k c, store_pos ppos (Z.of_nat (count_less k c))),
        if key_found k c then delete (count_less k c) c else c).
Proof.
  unfold Remove. rewrite locate_run by assumption.
  destruct (key_found k c) eqn:Hf; [|reflexivity].
  unfold bind, RemoveIndex, container_RemoveIndex. rewrite Nat2Z.id.
  assert (Hlt : (count_less k c < length c)%nat).
  { unfold key_found in Hf. destruct (c !! count_less k c) eqn:E; [|discriminate].
    apply lookup_lt_Some in E. exact E. }
  destruct (Z.leb_spec 0 (Z.of_nat (count_less k c))); [|lia].
  destruct (Z.ltb_spec (Z.of_nat (count_less k c)) (Z.of_nat (length c))); [|lia].
  reflexivity.
Qed.

(** Every mutator leaves a sorted array sorted. *)
Lemma sorted_insert_at_count v :
  key_found k c = false -> sorted (insert_at (count_less k c) (KeyVal k v) c).
Proof.
  intros Hf. rewrite <- (Nat2Z.id (count_less k c)).
  apply sorted_insert_at; [assumption | assumption | |].
  - apply Insert_pre_at_count; assumption.
  - apply Insert_strict_at_count, Hf.
Qed.

Lemma sorted_assign_at i v : sorted (assign_at i v c).
Proof.
  unfold assign_at. destruct (c !! i) as [e|] eqn:He; [|exact Hs].
  apply sorted_assign_value; assumption.
Qed.

End Runs.

(** ** The stored value of a key, by membership *)

Lemma key_equiv_refl a : comp_irreflexive -> key_equiv a a = true.
Proof. intros Hirr. unfold key_equiv. rewrite Hirr. reflexivity. Qed.

Lemma key_equiv_congr a b x :
  equiv_transitive -> key_equiv a b = true -> key_equiv a x = key_equiv b x.
Proof.
  intros Heqv Hab.
  destruct (key_equiv a x) eqn:Ea, (key_equiv b x) eqn:Eb; try reflexivity.
  - rewrite <- Eb. symmetry. apply (Heqv _ a); [rewrite key_equiv_sym|]; assumption.
  - rewrite <- Ea. apply (Heqv _ b); assumption.
Qed.

Lemma lookup_value_None k (c : Container) :
  comp_transitive -> sorted c ->
  lookup_value k c = None <-> ~ has_key k c.
Proof.
  intros Htrans Hs. rewrite <- (key_found_has_key k c Htrans Hs).
  unfold lookup_value, key_found.
  destruct (c !! count_less k c) as [e|]; simpl.
  - destruct (comp k (key e)); simpl; split; congruence.
  - split; congruence.
Qed.

Lemma lookup_value_Some k (c : Container) v :
  strict_weak_order -> sorted c ->
  lookup_value k c = Some v <->
  exists e, e ∈ c /\ key_equiv (key e) k = true /\ value e = v.
Proof.
  intros Hswo Hs. pose proof (swo_transitive Hswo) as Htrans. split.
  - unfold lookup_value. destruct (key_found k c) eqn:Hf; [|discriminate].
    apply key_found_at in Hf as (e & He & Heq); [|assumption..].
    rewrite He. simpl. intros [= <-]. exists e.
    split; [apply list_elem_of_lookup; eauto|]. split; [exact Heq | reflexivity].
  - intros (e & [i Hi]%list_elem_of_lookup & Heq & <-).
    pose proof (equiv_entry_index k c i e Hswo Hs Hi Heq) as ->.
    unfold lookup_value.
    assert (Hf : key_found k c = true).
    { apply key_found_at; [assumption..|]. eauto. }
    rewrite Hf, Hi. reflexivity.
Qed.

(** In a sorted array at most one entry compares equal to [k]. *)
Lemma equiv_entry_unique k (c : Container) i j ei ej :
  strict_weak_order -> sorted c ->
  c !! i = Some ei -> c !! j = Some ej ->
  key_equiv (key ei) k = true -> key_equiv (key ej) k = true -> i = j.
Proof.
  intros Hswo Hs Hi Hj Ei Ej.
  rewrite (equiv_entry_index k c i ei Hswo Hs Hi Ei).
  rewrite (equiv_entry_index k c j ej Hswo Hs Hj Ej). reflexivity.
Qed.

Lemma elem_of_insert_at i e (c : Container) e' :
  e' ∈ insert_at i e c <-> e' = e \/ e' ∈ c.
Proof.
  unfold insert_at. rewrite elem_of_app, elem_of_cons.
  rewrite <- (take_drop i c) at 3. rewrite elem_of_app. tauto.
Qed.

Lemma elem_of_delete_iff i (c : Container) e' :
  e' ∈ delete i c <-> exists j, j <> i /\ c !! j = Some e'.
Proof.
  rewrite list_elem_of_lookup. split.
  - intros [j Hj]. rewrite list_lookup_delete in Hj.
    case_decide; [exists j | exists (S j)]; (split; [lia | exact Hj]).
  - intros (j & Hne & Hj). destruct (decide (j < i)%nat) as [Hlt|Hge].
    + exists j. rewrite list_lookup_delete_lt by exact Hlt. exact Hj.
    + exists (pred j). rewrite list_lookup_delete_ge by lia.
      replace (S (pred j)) with j by lia. exact Hj.
Qed.

Lemma elem_of_assign_iff i e2 (c : Container) e' :
  (i < length c)%nat ->
  e' ∈ <[i := e2]> c <-> e' = e2 \/ exists j, j <> i /\ c !! j = Some e'.
Proof.
  intros Hi. rewrite list_elem_of_lookup. split.
  - intros [j Hj]. destruct (decide (i = j)) as [<-|Hne].
    + rewrite list_lookup_insert_eq in Hj by exact Hi. injection Hj as <-. left. reflexivity.
    + rewrite list_lookup_insert_ne in Hj by exact Hne. right. exists j. split; [congruence | exact Hj].
  - intros [->|(j & Hne & Hj)].
    + exists i. apply list_lookup_insert_eq, Hi.
    + exists j. rewrite list_lookup_insert_ne by congruence. exact Hj.
Qed.

(** The stored values after an insertion, an overwrite and a removal. *)
Lemma lookup_value_insert_at i k v (c : Container) x :
  strict_weak_order -> sorted c -> sorted (insert_at i (KeyVal k v) c) ->
  lookup_value x (insert_at i (KeyVal k v) c) =
  if key_equiv k x then Some v else lookup_value x c.
Proof.
  intros Hswo Hs Hs'. destruct (key_equiv k x) eqn:Ekx.
  - apply lookup_value_Some; [assumption..|]. exists (KeyVal k v).
    split; [apply elem_of_insert_at; left; reflexivity|]. split; [exact Ekx | reflexivity].
  - apply option_eq. intros w. rewrite !lookup_value_Some by assumption. split.
    + intros (e & [->|He]%elem_of_insert_at & Heq & Hv).
      * simpl in Heq. congruence.
      * exists e. auto.
    + intros (e & He & Heq & Hv). exists e.
      split; [apply elem_of_insert_at; right; exact He | auto].
Qed.

Lemma lookup_value_assign i e v (c : Container) x :
  strict_weak_order -> sorted c -> c !! i = Some e ->
  lookup_value x (<[i := KeyVal (key e) v]> c) =
  if key_equiv (key e) x then Some v else lookup_value x c.
Proof.
  intros Hswo Hs Hi. pose proof (sorted_assign_value i e v c Hi Hs) as Hs'.
  pose proof (lookup_lt_Some _ _ _ Hi) as Hlt.
  destruct (key_equiv (key e) x) eqn:Eex.
  - apply lookup_value_Some; [assumption..|]. exists (KeyVal (key e) v).
    split; [apply elem_of_assign_iff; [exact Hlt | left; reflexivity]|].
    split; [exact Eex | reflexivity].
  - apply option_eq. intros w. rewrite !lookup_value_Some by assumption. split.
    + intros (e' & [->|(j & Hne & Hj)]%elem_of_assign_iff & Heq & Hv); [| |exact Hlt].
      * simpl in Heq. congruence.
      * exists e'. split; [apply list_elem_of_lookup; eauto | auto].
    + intros (e' & [j Hj]%list_elem_of_lookup & Heq & Hv). exists e'.
      split; [|auto]. apply elem_of_assign_iff; [exact Hlt|]. right.
      exists j. split; [|exact Hj]. intros ->. congruence.
Qed.

Lemma lookup_value_delete i e (c : Container) x :
  strict_weak_order -> sorted c -> c !! i = Some e ->
  lookup_value x (delete i c) =
  if key_equiv (key e) x then None else lookup_value x c.
Proof.
  intros Hswo Hs Hi. pose proof (sorted_delete i c Hs) as Hs'.
  destruct (key_equiv (key e) x) eqn:Eex.
  - apply lookup_value_None; [apply Hswo | exact Hs' |].
    intros (e' & (j & Hne & Hj)%elem_of_delete_iff & Heq).
    apply Hne. apply (equiv_entry_unique x c j i e' e); assumption.
  - apply option_eq. intros w. rewrite !lookup_value_Some by assumption. split.
    + intros (e' & (j & Hne & Hj)%elem_of_delete_iff & Heq & Hv).
      exists e'. split; [apply list_elem_of_lookup; eauto | auto].
    + intros (e' & [j Hj]%list_elem_of_lookup & Heq & Hv). exists e'.
      split; [|auto]. apply elem_of_delete_iff.
      exists j. split; [|exact Hj]. intros ->. congruence.
Qed.

(** ** The effect of each mutator on the stored values *)

Section Effects.

Hypothesis Hswo : strict_weak_order.
Variable c : Container.
Hypothesis Hs : sorted c.

Lemma lookup_value_equiv k x :
  key_equiv k x = true -> lookup_value k c = lookup_value x c.
Proof.
  intros Hkx. apply option_eq. intros w. rewrite !lookup_value_Some by assumption.
  assert (Hc : forall e : Entry, key_equiv (key e) k = key_equiv (key e) x).
  { intros e. rewrite (key_equiv_sym (key e) k), (key_equiv_sym (key e) x).
    apply key_equiv_congr; [apply Hswo | exact Hkx]. }
  split; intros (e & He & Heq & Hv); exists e; (split; [exact He|]);
    (split; [|exact Hv]); [rewrite <- Hc | rewrite Hc]; exact Heq.
Qed.

Lemma key_found_lookup_value k :
  key_found k c = true <-> is_Some (lookup_value k c).
Proof.
  unfold lookup_value, key_found.
  destruct (c !! count_less k c) as [e|]; simpl.
  - destruct (comp k (key e)); simpl.
    + split; [discriminate | intros [? ?]; discriminate].
    + split; [eauto | reflexivity].
  - split; [discriminate | intros [? ?]; discriminate].
Qed.

Lemma key_not_found_lookup_value k :
  key_found k c = false <-> lookup_value k c = None.
Proof.
  rewrite <- not_true_iff_false, key_found_lookup_value, eq_None_not_Some.
  reflexivity.
Qed.

Lemma Set_effect k v ppos r c' x :
  Set_ k v ppos c = Done (r, c') ->
  sorted c' /\
  lookup_value x c' = if key_equiv k x then Some v else lookup_value x c.
Proof.
  rewrite Set_run by (apply Hswo || exact Hs). intros [= <- <-].
  destruct (key_found k c) eqn:Hf.
  - split; [apply sorted_assign_at, Hs|].
    apply key_found_at in Hf as (e & He & Heq); [|apply Hswo | exact Hs].
    unfold assign_at. rewrite He.
    rewrite (lookup_value_assign _ e v c x Hswo Hs He).
    rewrite (key_equiv_congr _ _ x (swo_equiv_transitive Hswo) Heq). reflexivity.
  - pose proof (sorted_insert_at_count (swo_transitive Hswo) c Hs k v Hf) as Hs'.
    split; [exact Hs'|]. apply lookup_value_insert_at; assumption.
Qed.

Lemma insert_if_new_effect k v x :
  let c' := if key_found k c then c else insert_at (count_less k c) (KeyVal k v) c in
  sorted c' /\
  lookup_value x c' =
    if key_equiv k x
    then match lookup_value x c with Some old => Some old | None => Some v end
    else lookup_value x c.
Proof.
  simpl. destruct (key_found k c) eqn:Hf.
  - split; [exact Hs|]. destruct (key_equiv k x) eqn:Ekx; [|reflexivity].
    apply key_found_lookup_value in Hf as [old Hold].
    rewrite <- (lookup_value_equiv k x Ekx), Hold. reflexivity.
  - pose proof (sorted_insert_at_count (swo_transitive Hswo) c Hs k v Hf) as Hs'.
    split; [exact Hs'|]. rewrite lookup_value_insert_at by assumption.
    destruct (key_equiv k x) eqn:Ekx; [|reflexivity].
    apply key_not_found_lookup_value in Hf.
    rewrite <- (lookup_value_equiv k x Ekx), Hf. reflexivity.
Qed.

Lemma AddIfNew_effect k v ppos r c' x :
  AddIfNew k v ppos c = Done (r, c') ->
  sorted c' /\
  lookup_value x c' =
    if key_equiv k x
    then match lookup_value x c with Some old => Some old | None => Some v end
    else lookup_value x c.
Proof.
  rewrite AddIfNew_run by (apply Hswo || exact Hs). intros [= <- <-].
  apply insert_if_new_effect.
Qed.

Lemma operator_index_effect k r c' x :
  operator_index k c = Done (r, c') ->
  sorted c' /\
  lookup_value x c' =
    if key_equiv k x
    then match lookup_value x c with Some old => Some old | None => Some Value_default end
    else lookup_value x c.
Proof.
  rewrite operator_index_run by (apply Hswo || exact Hs). intros [= <- <-].
  apply insert_if_new_effect.
Qed.

Lemma Insert_effect k v pos r c' x :
  Insert_strict k pos c -> Insert k v pos c = Done (r, c') ->
  sorted c' /\
  lookup_value x c' = if key_equiv k x then Some v else lookup_value x c.
Proof.
  intros Hstrict [Hpre ->]%Insert_inv.
  pose proof (sorted_insert_at k v pos c (swo_transitive Hswo) Hs Hpre Hstrict) as Hs'.
  split; [exact Hs'|]. apply lookup_value_insert_at; assumption.
Qed.

Lemma RemoveIndex_effect pos e r c' x :
  c !! Z.to_nat pos = Some e -> RemoveIndex pos c = Done (r, c') ->
  sorted c' /\
  lookup_value x c' = if key_equiv (key e) x then None else lookup_value x c.
Proof.
  intros He. unfold RemoveIndex, container_RemoveIndex.
  destruct ((0 <=? pos) && (pos <? Z.of_nat (length c))); [|discriminate].
  intros [= <- <-]. split; [apply sorted_delete, Hs|].
  apply lookup_value_delete; assumption.
Qed.

Lemma Remove_effect k ppos r c' x :
  Remove k ppos c = Done (r, c') ->
  sorted c' /\
  lookup_value x c' = if key_equiv k x then None else lookup_value x c.
Proof.
  rewrite Remove_run by (apply Hswo || exact Hs). intros [= <- <-].
  destruct (key_found k c) eqn:Hf.
  - split; [apply sorted_delete, Hs|].
    apply key_found_at in Hf as (e & He & Heq); [|apply Hswo | exact Hs].
    rewrite (lookup_value_delete _ e c x Hswo Hs He).
    rewrite (key_equiv_congr _ _ x (swo_equiv_transitive Hswo) Heq). reflexivity.
  - split; [exact Hs|]. destruct (key_equiv k x) eqn:Ekx; [|reflexivity].
    apply key_not_found_lookup_value in Hf.
    rewrite <- (lookup_value_equiv k x Ekx). exact Hf.
Qed.

End Effects.

(** ** Invariants of the reachable maps *)

Lemma reachable_strict_sorted (c : Container) :
  comp_transitive -> reachable_strict c -> sorted c.
Proof.
  intros Htrans Hr. unfold reachable_strict in Hr.
  induction Hr as
    [ | c r c' _ IH H | c k r c' _ IH H | c k r c' _ IH H | c k r c' _ IH H
      | c k d r c' _ IH H | c k v ppos r c' _ IH H | c k v ppos r c' _ IH H
      | c k r c' _ IH H | c k v pos r c' _ IH Hok H | c k ppos r c' _ IH H
      | c pos r c' _ IH H | c fb r c' _ IH H | c cnt r c' _ IH H
      | c other r c' _ IH _ IHo H ].
  - apply sorted_nil.
  - injection H as _ <-. exact IH.
  - rewrite FirstGE_sorted in H by assumption. injection H as _ <-. exact IH.
  - rewrite Find_run in H by assumption. injection H as _ <-. exact IH.
  - rewrite FindIndex_run in H by assumption. injection H as _ <-. exact IH.
  - rewrite Get_run in H by assumption. injection H as _ <-. exact IH.
  - rewrite Set_run in H by assumption. injection H as _ <-.
    destruct (key_found k c) eqn:Hf;
      [apply sorted_assign_at | apply sorted_insert_at_count]; assumption.
  - rewrite AddIfNew_run in H by assumption. injection H as _ <-.
    destruct (key_found k c) eqn:Hf;
      [exact IH | apply sorted_insert_at_count; assumption].
  - rewrite operator_index_run in H by assumption. injection H as _ <-.
    destruct (key_found k c) eqn:Hf;
      [exact IH | apply sorted_insert_at_count; assumption].
  - apply Insert_inv in H as [Hpre ->]. apply sorted_insert_at; assumption.
  - rewrite Remove_run in H by assumption. injection H as _ <-.
    destruct (key_found k c); [apply sorted_delete|]; exact IH.
  - unfold RemoveIndex, container_RemoveIndex in H.
    destruct ((0 <=? pos) && (pos <? Z.of_nat (length c))); [|discriminate].
    injection H as _ <-. apply sorted_delete, IH.
  - injection H as _ <-. apply sorted_nil.
  - injection H as _ <-. exact IH.
  - injection H as _ <-. exact IHo.
Qed.

(** In a sorted array no two entries have keys that compare equal. *)
Lemma sorted_no_equal_keys (c : Container) i j ei ej :
  sorted c -> i <> j -> c !! i = Some ei -> c !! j = Some ej ->
  key_equiv (key ei) (key ej) = false.
Proof.
  intros Hs Hne Hi Hj. unfold key_equiv.
  destruct (Nat.lt_trichotomy i j) as [Hlt|[Heq|Hgt]]; [|contradiction|].
  - rewrite (Hs i j ei ej Hlt Hi Hj). reflexivity.
  - rewrite (Hs j i ej ei Hgt Hj Hi). apply andb_false_r.
Qed.

(** The account of the stored values agrees with the array. *)
Lemma history_lookup_value (c : Container) w :
  strict_weak_order -> history c w ->
  sorted c /\ forall x, lookup_value x c = w x.
Proof.
  intros Hswo Hh.
  induction Hh as
    [ | c w k v ppos r c' _ [Hs IH] H | c w k v ppos r c' _ [Hs IH] H
      | c w k r c' _ [Hs IH] H | c w k v pos r c' _ [Hs IH] Hok H
      | c w k ppos r c' _ [Hs IH] H | c w pos e r c' _ [Hs IH] He H
      | c w fb r c' _ [Hs IH] H | c w cnt r c' _ [Hs IH] H
      | c w other w' r c' _ _ _ [Hs' IH'] H ].
  - split; [apply sorted_nil | reflexivity].
  - split; [eapply (Set_effect Hswo c Hs k v ppos r c' k), H|].
    intros x. rewrite <- IH. eapply Set_effect; eassumption.
  - split; [eapply (AddIfNew_effect Hswo c Hs k v ppos r c' k), H|].
    intros x. rewrite <- IH. eapply AddIfNew_effect; eassumption.
  - split; [eapply (operator_index_effect Hswo c Hs k r c' k), H|].
    intros x. rewrite <- IH. eapply operator_index_effect; eassumption.
  - split; [eapply (Insert_effect Hswo c Hs k v pos r c' k), H; exact Hok|].
    intros x. rewrite <- IH. eapply Insert_effect; eassumption.
  - split; [eapply (Remove_effect Hswo c Hs k ppos r c' k), H|].
    intros x. rewrite <- IH. eapply Remove_effect; eassumption.
  - split; [eapply (RemoveIndex_effect Hswo c Hs pos e r c' (key e)), H; exact He|].
    intros x. rewrite <- IH. eapply RemoveIndex_effect; eassumption.
  - injection H as _ <-. split; [apply sorted_nil | reflexivity].
  - injection H as _ <-. split; assumption.
  - injection H as _ <-. split; assumption.
Qed.

(** What [Find] returns, in terms of the stored value. *)
Lemma Find_lookup_value k (c : Container) :
  comp_transitive -> sorted c ->
  match lookup_value k c with
  | None => Find k c = Done (NULL, c)
  | Some v =>
      exists pos e,
        Find k c = Done (ElemPtr pos, c) /\
        deref (ElemPtr pos) c = Done (e, c) /\
        key_equiv (key e) k = true /\ value e = v
  end.
Proof.
  intros Htrans Hs. rewrite Find_run by assumption. unfold lookup_value.
  destruct (key_found k c) eqn:Hf; [|reflexivity].
  apply key_found_at in Hf as (e & He & Heq); [|assumption..].
  rewrite He. simpl. exists (Z.of_nat (count_less k c)), e.
  split; [reflexivity|]. split; [|split; [exact Heq | reflexivity]].
  apply container_at_lookup; [lia | rewrite Nat2Z.id; exact He].
Qed.

(** What [Get] returns, in terms of the stored value. *)
Lemma Get_lookup_value k default (c : Container) :
  comp_transitive -> sorted c ->
  Get k default c =
  Done (match lookup_value k c with Some v => v | None => default end, c).
Proof.
  intros Htrans Hs. rewrite Get_run by assumption. unfold lookup_value.
  destruct (key_found k c), (c !! count_less k c); reflexivity.
Qed.

(** More fuel does not change what the loop returns. *)
Lemma FirstGE_loop_fuel_mono fuel k : forall (c : Container) pos span probes res,
  FirstGE_loop fuel k pos span probes c = Done res ->
  forall fuel', (fuel <= fuel')%nat ->
  FirstGE_loop fuel' k pos span probes c = Done res.
Proof.
  induction fuel as [|fuel IH]; intros c pos span probes res Hrun fuel' Hle.
  - simpl in Hrun. destruct fuel' as [|fuel']; simpl;
      destruct (1 <? span); (discriminate || exact Hrun).
  - destruct fuel' as [|fuel']; [lia|]. simpl in *.
    destruct (1 <? span); [|exact Hrun].
    unfold bind in *.
    destruct (FirstGE_iter k pos span c) as [[ps c1]|f|]; [|discriminate..].
    apply (IH c1 _ _ _ _ Hrun). lia.
Qed.

(** Every value that a pass of the loop computes lies between [-1] and
    [Num() + 1], and the pass keeps the invariant of the loop. *)
Lemma FirstGE_iter_int_range k (c : Container) pos span ps c' :
  -1 <= pos -> 1 < span -> pos + span <= Z.of_nat (length c) ->
  FirstGE_iter k pos span c = Done (ps, c') ->
  1 <= span ≫ 1 <= Z.of_nat (length c) /\
  0 <= pos + span ≫ 1 < Z.of_nat (length c) /\
  -1 <= fst ps /\ 1 <= snd ps < span /\
  fst ps + snd ps <= Z.of_nat (length c) /\ c' = c.
Proof.
  intros Hpos Hspan Hend Hrun.
  destruct (FirstGE_iter_total k c pos span Hpos Hspan Hend) as (e & _ & _ & Hiter).
  rewrite Hiter in Hrun. injection Hrun as <- <-.
  pose proof (shiftr_1_bounds span Hspan). unfold FirstGE_probe. simpl.
  destruct (comp (key e) k); repeat split; lia.
Qed.

(** With fewer than [INT_MAX] entries nothing that [FirstGE] computes
    leaves the range of [int]. *)
Lemma FirstGE_no_overflow (c : Container) pos span :
  Z.of_nat (length c) < INT_MAX ->
  -1 <= pos -> 1 <= span -> pos + span <= Z.of_nat (length c) ->
  fits_int (Z.of_nat (length c) + 1) /\ fits_int (pos + 1) /\
  (1 < span ->
   fits_int (span ≫ 1) /\ fits_int (pos + span ≫ 1) /\
   fits_int (span - span ≫ 1)).
Proof.
  unfold fits_int, INT_MAX, INT_MIN. intros Hn Hpos Hspan Hend.
  split; [lia|]. split; [lia|]. intros Hlt.
  pose proof (shiftr_1_bounds span Hlt). lia.
Qed.

(** ** Where the entries are after an insertion or an overwrite *)

Lemma length_insert_at i e (c : Container) :
  length (insert_at i e c) = S (length c).
Proof.
  unfold insert_at. rewrite length_app. simpl.
  rewrite <- Nat.add_succ_comm. simpl. rewrite <- length_app, take_drop. reflexivity.
Qed.

Lemma lookup_insert_at_eq i e (c : Container) :
  (i <= length c)%nat -> insert_at i e c !! i = Some e.
Proof.
  intros Hi. unfold insert_at.
  rewrite lookup_app_r by (rewrite length_take_le by exact Hi; lia).
  rewrite length_take_le by exact Hi. rewrite Nat.sub_diag. reflexivity.
Qed.

Lemma lookup_insert_at_lt i e (c : Container) j :
  (i <= length c)%nat -> (j < i)%nat -> insert_at i e c !! j = c !! j.
Proof.
  intros Hi Hj. unfold insert_at.
  rewrite lookup_app_l by (rewrite length_take; lia).
  apply lookup_take_lt, Hj.
Qed.

Lemma lookup_insert_at_ge i e (c : Container) j :
  (i <= j)%nat -> insert_at i e c !! S j = c !! j.
Proof.
  intros Hj. unfold insert_at.
  destruct (decide (i <= length c)%nat) as [Hle|Hgt].
  - rewrite lookup_app_r by (rewrite length_take_le by exact Hle; lia).
    rewrite length_take_le by exact Hle.
    replace (S j - i)%nat with (S (j - i)) by lia. simpl.
    rewrite lookup_drop. f_equal. lia.
  - rewrite (lookup_ge_None_2 c j) by lia.
    apply lookup_ge_None_2. rewrite length_app, length_take. simpl.
    rewrite length_drop. lia.
Qed.

Lemma lookup_assign_at_eq i v (c : Container) e :
  c !! i = Some e -> assign_at i v c !! i = Some (KeyVal (key e) v).
Proof.
  intros He. unfold assign_at. rewrite He.
  apply list_lookup_insert_eq. apply lookup_lt_Some in He. exact He.
Qed.

Lemma lookup_assign_at_ne i v (c : Container) j :
  j <> i -> assign_at i v c !! j = c !! j.
Proof.
  intros Hne. unfold assign_at. destruct (c !! i); [|reflexivity].
  apply list_lookup_insert_ne. congruence.
Qed.

Lemma length_assign_at i v (c : Container) :
  length (assign_at i v c) = length c.
Proof. unfold assign_at. destruct (c !! i); [apply length_insert | reflexivity]. Qed.

End FlatMap.

(** ** The comparator of the scenarios *)

Lemma idLess_strict_weak_order : strict_weak_order idLess.
Proof.
  unfold idLess. split.
  - intros a. apply Z.ltb_irrefl.
  - intros a b c Hab%Z.ltb_lt Hbc%Z.ltb_lt. apply Z.ltb_lt. lia.
  - intros a b c [Hab Hba]%key_equiv_true [Hbc Hcb]%key_equiv_true.
    apply key_equiv_true. rewrite Z.ltb_ge in *. split; lia.
Qed.

Lemma idLess_transitive : comp_transitive idLess.
Proof. apply idLess_strict_weak_order. Qed.

(** ** FirstGE *)

(** C1. On a map whose entries are strictly ascending by key, under a
    transitive comparator, [FirstGE(K)] returns the smallest index [pos] in
    [0, N] such that the entry at [pos], if there is one, has a key not
    less than [K]; this index is the number of entries whose key is less
    than [K].  On the map with the keys 10 and 20, [FirstGE(15)] is 1,
    [FirstGE(5)] is 0 and [FirstGE(25)] is 2. *)
Theorem FirstGE_lower_bound :
  (forall (Key Value : Type) (comp : Key -> Key -> bool)
          (c : list (idKeyVal Key Value)) (k : Key),
      comp_transitive comp -> sorted comp c ->
      exists pos : nat,
        FirstGE comp k c = Done (Z.of_nat pos, c) /\
        (pos <= length c)%nat /\
        (forall e, c !! pos = Some e -> comp (key e) k = false) /\
        (forall i, (i <= length c)%nat ->
           (forall e, c !! i = Some e -> comp (key e) k = false) ->
           (pos <= i)%nat) /\
        pos = count_less comp k c) /\
  FirstGE idLess 15 [kv 10 "a"; kv 20 "b"] = Done (1, [kv 10 "a"; kv 20 "b"]) /\
  FirstGE idLess 5 [kv 10 "a"; kv 20 "b"] = Done (0, [kv 10 "a"; kv 20 "b"]) /\
  FirstGE idLess 25 [kv 10 "a"; kv 20 "b"] = Done (2, [kv 10 "a"; kv 20 "b"]).
Proof.
  split; [|repeat split; reflexivity].
  intros Key Value comp c k Htrans Hs. exists (count_less comp k c).
  split; [apply FirstGE_sorted; assumption|].
  split; [apply count_less_le_length|]. split; [|split; [|reflexivity]].
  - intros e He. destruct (comp (key e) k) eqn:E; [|reflexivity].
    apply (less_iff_before_count comp k c _ e Htrans Hs He) in E. lia.
  - intros i Hi Hnot. destruct (Nat.le_gt_cases (count_less comp k c) i) as [|Hlt]; [assumption|].
    destruct (lookup_lt_is_Some_2 c i) as [e He].
    { pose proof (count_less_le_length comp k c). lia. }
    apply (less_iff_before_count comp k c i e Htrans Hs He) in Hlt.
    rewrite (Hnot e He) in Hlt. discriminate.
Qed.

Lemma FirstGE_lower_bound_witness :
  comp_transitive idLess /\ sorted idLess [kv 10 "a"; kv 20 "b"] /\
  exists pos : nat,
    FirstGE idLess 15 [kv 10 "a"; kv 20 "b"] =
      Done (Z.of_nat pos, [kv 10 "a"; kv 20 "b"]) /\
    (pos <= 2)%nat /\
    (forall e, [kv 10 "a"; kv 20 "b"] !! pos = Some e -> idLess (key e) 15 = false) /\
    (forall i, (i <= 2)%nat ->
       (forall e, [kv 10 "a"; kv 20 "b"] !! i = Some e -> idLess (key e) 15 = false) ->
       (pos <= i)%nat) /\
    pos = count_less idLess 15 [kv 10 "a"; kv 20 "b"].
Proof.
  split; [exact idLess_transitive|].
  split; [apply sortedb_spec; reflexivity|].
  apply (proj1 FirstGE_lower_bound Z string idLess [kv 10 "a"; kv 20 "b"] 15).
  - exact idLess_transitive.
  - apply sortedb_spec. reflexivity.
Defined.

(** C9. On every map, sorted or not, and for every key, the loop of
    [FirstGE] comes to an end: each pass makes the span strictly smaller
    and keeps it at least 1, and the result does not depend on the fuel of
    the model.  Every index read (one comparator call goes with each) lies
    in [0, N-1], so no access leaves the array, and the array is left as it
    is.  The comparator is called [log2_up (N + 1)] times; on the empty map
    the result is 0 and nothing is read or compared. *)
Theorem FirstGE_terminates_in_bounds :
  forall (Key Value : Type) (comp : Key -> Key -> bool)
         (c : list (idKeyVal Key Value)) (k : Key),
    exists (r : Z) (probes : list Z),
      FirstGE_traced comp k c = Done ((r, probes), c) /\
      FirstGE comp k c = Done (r, c) /\
      0 <= r <= Z.of_nat (length c) /\
      Forall (fun i => 0 <= i <= Z.of_nat (length c) - 1) probes /\
      Z.of_nat (length probes) = Z.log2_up (Z.of_nat (length c) + 1) /\
      (length probes <= length c)%nat /\
      (c = [] -> r = 0 /\ probes = []) /\
      (forall fuel, (length c + 1 <= fuel)%nat ->
         FirstGE_loop comp fuel k (-1) (Z.of_nat (length c) + 1) [] c =
           Done ((r, probes), c)) /\
      (forall pos span ps c',
         -1 <= pos -> 1 < span -> pos + span <= Z.of_nat (length c) ->
         FirstGE_iter comp k pos span c = Done (ps, c') ->
         1 <= snd ps < span /\ c' = c) /\
      (forall pos span,
         -1 <= pos -> 1 < span -> pos + span <= Z.of_nat (length c) ->
         exists ps, FirstGE_iter comp k pos span c = Done (ps, c)).
Proof.
  intros Key Value comp c k.
  destruct (FirstGE_traced_total comp k c) as (r & probes & Hrun & Hr & Hin & Hlen & _).
  exists r, probes. split; [exact Hrun|].
  split; [unfold FirstGE, bind; rewrite Hrun; reflexivity|].
  split; [exact Hr|].
  split; [eapply Forall_impl; [exact Hin | simpl; intros; lia]|].
  split; [exact Hlen|].
  assert (Hle : (length probes <= length c)%nat).
  { pose proof (Z.log2_up_lt_lin (Z.of_nat (length c) + 1) ltac:(lia)). lia. }
  split; [exact Hle|]. split; [|split; [|split]].
  - intros ->. simpl in *. destruct probes; [|simpl in Hle; lia]. split; [lia | reflexivity].
  - intros fuel Hfuel. unfold FirstGE_traced, bind, container_Num in Hrun.
    apply (FirstGE_loop_fuel_mono comp _ k c _ _ _ _ Hrun). lia.
  - intros pos span ps c' Hpos Hspan Hend Hiter.
    pose proof (FirstGE_iter_int_range comp k c pos span ps c' Hpos Hspan Hend Hiter).
    intuition.
  - intros pos span Hpos Hspan Hend.
    destruct (FirstGE_iter_total comp k c pos span Hpos Hspan Hend) as (e & _ & _ & Hiter).
    eauto.
Qed.

Lemma FirstGE_terminates_in_bounds_witness :
  exists (r : Z) (probes : list Z),
    FirstGE_traced idLess 7 [kv 1 "a"; kv 3 "b"; kv 5 "c"; kv 7 "d"] =
      Done ((r, probes), [kv 1 "a"; kv 3 "b"; kv 5 "c"; kv 7 "d"]) /\
    FirstGE idLess 7 [kv 1 "a"; kv 3 "b"; kv 5 "c"; kv 7 "d"] =
      Done (r, [kv 1 "a"; kv 3 "b"; kv 5 "c"; kv 7 "d"]) /\
    0 <= r <= 4 /\
    Forall (fun i => 0 <= i <= 3) probes.
Proof.
  destruct (FirstGE_terminates_in_bounds Z string idLess
              [kv 1 "a"; kv 3 "b"; kv 5 "c"; kv 7 "d"] 7)
    as (r & probes & Hrun & Hres & Hr & Hin & _).
  exists r, probes. repeat split; (exact Hrun || exact Hres || exact Hin || apply Hr).
Defined.

(** ** The invariant *)

(** C2. Take any transitive comparator and any map built from the empty
    map by calls of the public methods ([Num], [FirstGE], [Find],
    [FindIndex], [Get], [Set], [AddIfNew], [operator[]], [Insert],
    [Remove], [RemoveIndex], [Clear], [Reserve], [Swap]) that return,
    where every call [Insert(key, value, pos)] meets its precondition: it
    passes its [assert]s and the entry at [pos], if there is one, has a
    key strictly greater than [key].  Then
    [comp(entry[i].key, entry[j].key)] holds for all valid [i < j], and no
    two entries have keys comparing equal. *)
Theorem reachable_strict_sortedness :
  forall (Key Value : Type) (comp : Key -> Key -> bool) (Value_default : Value)
         (c : list (idKeyVal Key Value)),
    comp_transitive comp -> reachable_strict comp Value_default c ->
    (forall i j ei ej, (i < j)%nat -> c !! i = Some ei -> c !! j = Some ej ->
       comp (key ei) (key ej) = true) /\
    (forall i j ei ej, i <> j -> c !! i = Some ei -> c !! j = Some ej ->
       key_equiv comp (key ei) (key ej) = false).
Proof.
  intros Key Value comp Value_default c Htrans Hr.
  pose proof (reachable_strict_sorted comp Value_default c Htrans Hr) as Hs.
  split; [exact Hs|]. intros i j ei ej. apply sorted_no_equal_keys, Hs.
Qed.

Lemma reachable_strict_sortedness_witness :
  comp_transitive idLess /\
  reachable_strict idLess EmptyString [kv 3 "b"; kv 4 "x"; kv 5 "c"] /\
  (forall i j ei ej, (i < j)%nat ->
     [kv 3 "b"; kv 4 "x"; kv 5 "c"] !! i = Some ei ->
     [kv 3 "b"; kv 4 "x"; kv 5 "c"] !! j = Some ej ->
     idLess (key ei) (key ej) = true) /\
  (forall i j ei ej, i <> j ->
     [kv 3 "b"; kv 4 "x"; kv 5 "c"] !! i = Some ei ->
     [kv 3 "b"; kv 4 "x"; kv 5 "c"] !! j = Some ej ->
     key_equiv idLess (key ei) (key ej) = false).
Proof.
  assert (Hr : reachable_strict idLess EmptyString [kv 3 "b"; kv 4 "x"; kv 5 "c"]).
  { apply (reach_Insert idLess EmptyString _ [kv 3 "b"; kv 5 "c"] 4 "x" 1 tt).
    - apply (reach_Set idLess EmptyString _ [kv 3 "b"; kv 5 "a"] 5 "c" None (false, None)).
      + apply (reach_Set idLess EmptyString _ [kv 5 "a"] 3 "b" None (true, None)).
        * apply (reach_Set idLess EmptyString _ [] 5 "a" None (true, None)).
          -- apply reach_empty.
          -- reflexivity.
        * reflexivity.
      + reflexivity.
    - intros e [= <-]. reflexivity.
    - reflexivity. }
  split; [exact idLess_transitive|]. split; [exact Hr|].
  exact (reachable_strict_sortedness Z string idLess EmptyString _ idLess_transitive Hr).
Defined.

(** ** Lookup *)

(** C3. Under a strict weak ordering and on every sorted map, [Find(K)]
    returns a pointer other than [NULL] exactly when some entry has a key
    comparing equal to [K], and the pointer then leads to such an entry.
    When the map was built by a sequence of calls of the methods, the value
    of that entry is the value most recently [Set] for [K], or the value
    [K] was inserted with if it was not overwritten since; [Find(K)] is
    [NULL] when [K] was never added or was removed since. *)
Theorem Find_lookup_correct :
  forall (Key Value : Type) (comp : Key -> Key -> bool) (Value_default : Value),
    strict_weak_order comp ->
    (forall (c : list (idKeyVal Key Value)) (k : Key),
       sorted comp c ->
       exists p,
         Find comp k c = Done (p, c) /\
         (p <> NULL <-> has_key comp k c) /\
         (forall pos, p = ElemPtr pos ->
            exists e, deref (ElemPtr pos) c = Done (e, c) /\
                      key_equiv comp (key e) k = true)) /\
    (forall (c : list (idKeyVal Key Value)) (w : Key -> option Value) (k : Key),
       history comp Value_default c w ->
       sorted comp c /\
       match w k with
       | None => Find comp k c = Done (NULL, c)
       | Some v =>
           exists pos e,
             Find comp k c = Done (ElemPtr pos, c) /\
             deref (ElemPtr pos) c = Done (e, c) /\
             key_equiv comp (key e) k = true /\ value e = v
       end).
Proof.
  intros Key Value comp Value_default Hswo.
  pose proof (swo_transitive comp Hswo) as Htrans. split.
  - intros c k Hs.
    pose proof (Find_lookup_value comp k c Htrans Hs) as HF.
    pose proof (lookup_value_None comp k c Htrans Hs) as HN.
    destruct (lookup_value comp k c) as [v|] eqn:El.
    + destruct HF as (pos & e & HFind & Hderef & Heq & _).
      exists (ElemPtr pos). split; [exact HFind|]. split.
      * split; [|discriminate]. intros _.
        apply (key_found_has_key comp k c Htrans Hs).
        apply key_found_lookup_value. rewrite El. eauto.
      * intros pos' [= <-]. eauto.
    + exists NULL. split; [exact HF|]. split.
      * split; [congruence|]. intros Hk. exfalso. apply HN; [reflexivity | exact Hk].
      * discriminate.
  - intros c w k Hh.
    destruct (history_lookup_value comp Value_default c w Hswo Hh) as [Hs Hw].
    split; [exact Hs|]. rewrite <- Hw. apply Find_lookup_value; assumption.
Qed.

Lemma Find_lookup_correct_witness :
  strict_weak_order idLess /\
  sorted idLess [kv 3 "b"; kv 5 "c"] /\
  (exists p,
     Find idLess 5 [kv 3 "b"; kv 5 "c"] = Done (p, [kv 3 "b"; kv 5 "c"]) /\
     (p <> NULL <-> has_key idLess 5 [kv 3 "b"; kv 5 "c"]) /\
     (forall pos, p = ElemPtr pos ->
        exists e, deref (ElemPtr pos) [kv 3 "b"; kv 5 "c"] =
                    Done (e, [kv 3 "b"; kv 5 "c"]) /\
                  key_equiv idLess (key e) 5 = true)) /\
  (exists pos e,
     Find idLess 5 [kv 3 "b"; kv 5 "c"] = Done (ElemPtr pos, [kv 3 "b"; kv 5 "c"]) /\
     deref (ElemPtr pos) [kv 3 "b"; kv 5 "c"] = Done (e, [kv 3 "b"; kv 5 "c"]) /\
     key_equiv idLess (key e) 5 = true /\ value e = "c") /\
  Find idLess 4 [kv 3 "b"; kv 5 "c"] = Done (NULL, [kv 3 "b"; kv 5 "c"]).
Proof.
  pose proof (Find_lookup_correct Z string idLess EmptyString idLess_strict_weak_order)
    as [Hfind Hhist].
  assert (Hs : sorted idLess [kv 3 "b"; kv 5 "c"]) by (apply sortedb_spec; reflexivity).
  assert (Hh : history idLess EmptyString [kv 3 "b"; kv 5 "c"]
                 (fun x => if key_equiv idLess 5 x then Some "c" else
                           if key_equiv idLess 3 x then Some "b" else
                           if key_equiv idLess 5 x then Some "a" else None)).
  { apply (hist_Set idLess EmptyString [kv 3 "b"; kv 5 "a"] _ 5 "c" None (false, None)); [|reflexivity].
    apply (hist_Set idLess EmptyString [kv 5 "a"] _ 3 "b" None (true, None)); [|reflexivity].
    apply (hist_Set idLess EmptyString [] _ 5 "a" None (true, None)); [|reflexivity].
    apply hist_empty. }
  split; [exact idLess_strict_weak_order|]. split; [exact Hs|].
  split; [exact (Hfind _ 5 Hs)|].
  split; [exact (proj2 (Hhist _ _ 5 Hh)) | exact (proj2 (Hhist _ _ 4 Hh))].
Defined.

(** ** Set *)

(** C4. On a sorted map, under a transitive comparator, [Set(key, value,
    &outPos)] returns; it overwrites the value of the entry whose key
    compares equal to [key] if there is one, and otherwise inserts
    [{key, value}] so that the map stays sorted; it returns true exactly
    when no entry compared equal to [key] before; a supplied output
    position receives the index at which the overwritten or inserted
    entry is afterwards.  From the empty map, [Set(5,"a")] returns true
    with [Num() == 1], [Set(3,"b")] returns true with the order [3,5], and
    [Set(5,"c")] returns false, leaves [Num() == 2] and the value "c" at
    key 5. *)
Theorem Set_overwrites_or_inserts :
  (forall (Key Value : Type) (comp : Key -> Key -> bool)
          (c : list (idKeyVal Key Value)) (k : Key) (v : Value) (ppos : option Z),
      comp_transitive comp -> sorted comp c ->
      exists (added : bool) (pos : nat) (out : option Z)
             (c' : list (idKeyVal Key Value)),
        Set_ comp k v ppos c = Done ((added, out), c') /\
        (added = true <-> ~ has_key comp k c) /\
        (is_Some ppos -> out = Some (Z.of_nat pos)) /\
        (ppos = None -> out = None) /\
        sorted comp c' /\
        (added = false ->
           exists e, c !! pos = Some e /\ key_equiv comp (key e) k = true /\
                     c' = <[pos := KeyVal (key e) v]> c /\
                     c' !! pos = Some (KeyVal (key e) v)) /\
        (added = true ->
           c' = insert_at pos (KeyVal k v) c /\
           c' !! pos = Some (KeyVal k v))) /\
  (r <- Set_ idLess 5 "a" None ;; n <- Num ;; ret (r, n)) [] =
    Done (((true, None), 1), [kv 5 "a"]) /\
  (r <- Set_ idLess 3 "b" None ;; n <- Num ;; ret (r, n)) [kv 5 "a"] =
    Done (((true, None), 2), [kv 3 "b"; kv 5 "a"]) /\
  (r <- Set_ idLess 5 "c" None ;; n <- Num ;; ret (r, n)) [kv 3 "b"; kv 5 "a"] =
    Done (((false, None), 2), [kv 3 "b"; kv 5 "c"]) /\
  (r1 <- Set_ idLess 5 "a" (Some (-1)) ;; n1 <- Num ;;
   r2 <- Set_ idLess 3 "b" (Some (-1)) ;; n2 <- Num ;;
   r3 <- Set_ idLess 5 "c" (Some (-1)) ;; n3 <- Num ;;
   ret (r1, n1, r2, n2, r3, n3)) [] =
  Done (((true, Some 0), 1, (true, Some 0), 2, (false, Some 1), 2),
        [kv 3 "b"; kv 5 "c"]).
Proof.
  split; [|repeat apply conj; reflexivity].
  intros Key Value comp c k v ppos Htrans Hs.
  pose proof (Set_run comp Htrans c Hs k v ppos) as Hrun.
  pose proof (key_found_has_key comp k c Htrans Hs) as Hhas.
  exists (negb (key_found comp k c)), (count_less comp k c),
    (store_pos ppos (Z.of_nat (count_less comp k c))).
  destruct (key_found comp k c) eqn:Hf; simpl in *.
  - exists (assign_at (count_less comp k c) v c).
    split; [exact Hrun|].
    split; [split; [discriminate | intros Hn; exfalso; apply Hn, Hhas; reflexivity]|].
    split; [intros [old ->]; reflexivity|]. split; [intros ->; reflexivity|].
    split; [apply sorted_assign_at, Hs|]. split; [|discriminate]. intros _.
    apply key_found_at in Hf as (e & He & Heq); [|assumption..].
    exists e. split; [exact He|]. split; [exact Heq|].
    split; [unfold assign_at; rewrite He; reflexivity|].
    apply lookup_assign_at_eq, He.
  - exists (insert_at (count_less comp k c) (KeyVal k v) c).
    split; [exact Hrun|].
    split; [split; [intros _ Hk; apply Hhas in Hk; discriminate | reflexivity]|].
    split; [intros [old ->]; reflexivity|]. split; [intros ->; reflexivity|].
    split; [apply sorted_insert_at_count; assumption|]. split; [discriminate|].
    intros _. split; [reflexivity|].
    apply lookup_insert_at_eq, count_less_le_length.
Qed.

Lemma Set_overwrites_or_inserts_witness :
  comp_transitive idLess /\ sorted idLess [kv 3 "b"; kv 5 "a"] /\
  exists (added : bool) (pos : nat) (out : option Z) (c' : list (idKeyVal Z string)),
    Set_ idLess 5 "c" (Some (-1)) [kv 3 "b"; kv 5 "a"] = Done ((added, out), c') /\
    (added = true <-> ~ has_key idLess 5 [kv 3 "b"; kv 5 "a"]) /\
    (is_Some (Some (-1)) -> out = Some (Z.of_nat pos)) /\
    (Some (-1) = None -> out = None) /\
    sorted idLess c' /\
    (added = false ->
       exists e, [kv 3 "b"; kv 5 "a"] !! pos = Some e /\
                 key_equiv idLess (key e) 5 = true /\
                 c' = <[pos := KeyVal (key e) "c"]> [kv 3 "b"; kv 5 "a"] /\
                 c' !! pos = Some (KeyVal (key e) "c")) /\
    (added = true ->
       c' = insert_at pos (KeyVal 5 "c") [kv 3 "b"; kv 5 "a"] /\
       c' !! pos = Some (KeyVal 5 "c")).
Proof.
  split; [exact idLess_transitive|].
  split; [apply sortedb_spec; reflexivity|].
  apply (proj1 Set_overwrites_or_inserts Z string idLess).
  - exact idLess_transitive.
  - apply sortedb_spec. reflexivity.
Defined.

(** C10. On a sorted map, under a transitive comparator, [Set(key,
    value)] returns false exactly when some entry has a key comparing
    equal to [key].  When it returns false, [Num()] is as before, the
    matched entry is the one at the index that [FirstGE] and [FindIndex]
    return for [key], its key compares equal to [key], it keeps its key
    and has the new value, and every entry at another index is as before.
    When it returns true, [Num()] is larger by one and every entry that
    was there keeps its key and its value, one slot further when it was at
    or behind the position of the new entry. *)
Theorem Set_frame :
  forall (Key Value : Type) (comp : Key -> Key -> bool)
         (c : list (idKeyVal Key Value)) (k : Key) (v : Value) (ppos : option Z),
    comp_transitive comp -> sorted comp c ->
    exists (added : bool) (out : option Z) (c' : list (idKeyVal Key Value))
           (pos : nat),
      Set_ comp k v ppos c = Done ((added, out), c') /\
      FirstGE comp k c = Done (Z.of_nat pos, c) /\
      (added = false <-> has_key comp k c) /\
      (added = false ->
         Num c' = Done (Z.of_nat (length c), c') /\
         (forall j, j <> pos -> c' !! j = c !! j) /\
         exists e, c !! pos = Some e /\
                   key_equiv comp (key e) k = true /\
                   FindIndex comp k c = Done (Z.of_nat pos, c) /\
                   c' !! pos = Some (KeyVal (key e) v)) /\
      (added = true ->
         Num c' = Done (Z.of_nat (length c) + 1, c') /\
         (forall j e, c !! j = Some e ->
            c' !! (if decide (j < pos)%nat then j else S j) = Some e) /\
         c' !! pos = Some (KeyVal k v)).
Proof.
  intros Key Value comp c k v ppos Htrans Hs.
  pose proof (Set_run comp Htrans c Hs k v ppos) as Hrun.
  pose proof (FindIndex_run comp Htrans c Hs k) as Hindex.
  pose proof (key_found_has_key comp k c Htrans Hs) as Hhas.
  pose proof (count_less_le_length comp k c) as Hle.
  exists (negb (key_found comp k c)),
    (store_pos ppos (Z.of_nat (count_less comp k c))).
  destruct (key_found comp k c) eqn:Hf; simpl in *.
  - exists (assign_at (count_less comp k c) v c), (count_less comp k c).
    split; [exact Hrun|]. split; [apply FirstGE_sorted; assumption|].
    split; [split; [intros _; apply Hhas; reflexivity | reflexivity]|].
    split; [|discriminate]. intros _.
    split; [unfold Num, container_Num; rewrite length_assign_at; reflexivity|].
    split; [intros j Hj; apply lookup_assign_at_ne, Hj|].
    apply key_found_at in Hf as (e & He & Heq); [|assumption..].
    exists e. split; [exact He|]. split; [exact Heq|].
    split; [exact Hindex | apply lookup_assign_at_eq, He].
  - exists (insert_at (count_less comp k c) (KeyVal k v) c), (count_less comp k c).
    split; [exact Hrun|]. split; [apply FirstGE_sorted; assumption|].
    split; [split; [discriminate | intros Hk; apply Hhas in Hk; discriminate]|].
    split; [discriminate|]. intros _.
    split; [unfold Num, container_Num; rewrite length_insert_at; f_equal; f_equal; lia|].
    split; [|apply lookup_insert_at_eq, Hle].
    intros j e He. case_decide.
    + rewrite lookup_insert_at_lt by assumption. exact He.
    + rewrite lookup_insert_at_ge by lia. exact He.
Qed.

Lemma Set_frame_witness :
  comp_transitive idLess /\ sorted idLess [kv 3 "b"; kv 5 "a"] /\
  (exists (added : bool) (out : option Z) (c' : list (idKeyVal Z string)) (pos : nat),
     Set_ idLess 5 "x" None [kv 3 "b"; kv 5 "a"] = Done ((added, out), c') /\
     FirstGE idLess 5 [kv 3 "b"; kv 5 "a"] = Done (Z.of_nat pos, [kv 3 "b"; kv 5 "a"]) /\
     (added = false <-> has_key idLess 5 [kv 3 "b"; kv 5 "a"]) /\
     (added = false ->
        Num c' = Done (Z.of_nat (length [kv 3 "b"; kv 5 "a"]), c') /\
        (forall j, j <> pos -> c' !! j = [kv 3 "b"; kv 5 "a"] !! j) /\
        exists e, [kv 3 "b"; kv 5 "a"] !! pos = Some e /\
                  key_equiv idLess (key e) 5 = true /\
                  FindIndex idLess 5 [kv 3 "b"; kv 5 "a"] =
                    Done (Z.of_nat pos, [kv 3 "b"; kv 5 "a"]) /\
                  c' !! pos = Some (KeyVal (key e) "x")) /\
     (added = true ->
        Num c' = Done (Z.of_nat (length [kv 3 "b"; kv 5 "a"]) + 1, c') /\
        (forall j e, [kv 3 "b"; kv 5 "a"] !! j = Some e ->
           c' !! (if decide (j < pos)%nat then j else S j) = Some e) /\
        c' !! pos = Some (KeyVal 5 "x"))) /\
  (exists (added : bool) (out : option Z) (c' : list (idKeyVal Z string)) (pos : nat),
     Set_ idLess 4 "x" None [kv 3 "b"; kv 5 "a"] = Done ((added, out), c') /\
     FirstGE idLess 4 [kv 3 "b"; kv 5 "a"] = Done (Z.of_nat pos, [kv 3 "b"; kv 5 "a"]) /\
     (added = false <-> has_key idLess 4 [kv 3 "b"; kv 5 "a"]) /\
     (added = false ->
        Num c' = Done (Z.of_nat (length [kv 3 "b"; kv 5 "a"]), c') /\
        (forall j, j <> pos -> c' !! j = [kv 3 "b"; kv 5 "a"] !! j) /\
        exists e, [kv 3 "b"; kv 5 "a"] !! pos = Some e /\
                  key_equiv idLess (key e) 4 = true /\
                  FindIndex idLess 4 [kv 3 "b"; kv 5 "a"] =
                    Done (Z.of_nat pos, [kv 3 "b"; kv 5 "a"]) /\
                  c' !! pos = Some (KeyVal (key e) "x")) /\
     (added = true ->
        Num c' = Done (Z.of_nat (length [kv 3 "b"; kv 5 "a"]) + 1, c') /\
        (forall j e, [kv 3 "b"; kv 5 "a"] !! j = Some e ->
           c' !! (if decide (j < pos)%nat then j else S j) = Some e) /\
        c' !! pos = Some (KeyVal 4 "x"))).
Proof.
  assert (Hs : sorted idLess [kv 3 "b"; kv 5 "a"])
    by (apply sortedb_spec; reflexivity).
  split; [exact idLess_transitive|]. split; [exact Hs|]. split.
  - exact (Set_frame Z string idLess [kv 3 "b"; kv 5 "a"] 5 "x" None
             idLess_transitive Hs).
  - exact (Set_frame Z string idLess [kv 3 "b"; kv 5 "a"] 4 "x" None
             idLess_transitive Hs).
Defined.

(** ** AddIfNew *)

(** C6. On a sorted map, under a transitive comparator, [AddIfNew(key,
    value, &outPos)] inserts [{key, value}], keeping the map sorted, only
    if no entry has a key comparing equal to [key]; otherwise it leaves the
    whole map, the existing entry included, as it is.  It returns true
    exactly when it has inserted, and a supplied output position receives
    the index of the entry in both cases.  [AddIfNew(4,"x")] on the empty
    map returns true and stores [{4,"x"}]; [AddIfNew(4,"y")] then returns
    false and the value stays "x". *)
Theorem AddIfNew_inserts_only_new :
  (forall (Key Value : Type) (comp : Key -> Key -> bool)
          (c : list (idKeyVal Key Value)) (k : Key) (v : Value) (ppos : option Z),
      comp_transitive comp -> sorted comp c ->
      exists (added : bool) (pos : nat) (out : option Z)
             (c' : list (idKeyVal Key Value)),
        AddIfNew comp k v ppos c = Done ((added, out), c') /\
        (added = true <-> ~ has_key comp k c) /\
        (is_Some ppos -> out = Some (Z.of_nat pos)) /\
        (ppos = None -> out = None) /\
        sorted comp c' /\
        (added = false ->
           c' = c /\
           exists e, c !! pos = Some e /\ key_equiv comp (key e) k = true) /\
        (added = true ->
           c' = insert_at pos (KeyVal k v) c /\
           c' !! pos = Some (KeyVal k v))) /\
  AddIfNew idLess 4 "x" None [] = Done ((true, None), [kv 4 "x"]) /\
  AddIfNew idLess 4 "y" None [kv 4 "x"] = Done ((false, None), [kv 4 "x"]) /\
  (r1 <- AddIfNew idLess 4 "x" (Some (-1)) ;;
   r2 <- AddIfNew idLess 4 "y" (Some (-1)) ;;
   ret (r1, r2)) [] =
  Done (((true, Some 0), (false, Some 0)), [kv 4 "x"]).
Proof.
  split; [|repeat apply conj; reflexivity].
  intros Key Value comp c k v ppos Htrans Hs.
  pose proof (AddIfNew_run comp Htrans c Hs k v ppos) as Hrun.
  pose proof (key_found_has_key comp k c Htrans Hs) as Hhas.
  exists (negb (key_found comp k c)), (count_less comp k c),
    (store_pos ppos (Z.of_nat (count_less comp k c))).
  destruct (key_found comp k c) eqn:Hf; simpl in *.
  - exists c. split; [exact Hrun|].
    split; [split; [discriminate | intros Hn; exfalso; apply Hn, Hhas; reflexivity]|].
    split; [intros [old ->]; reflexivity|]. split; [intros ->; reflexivity|].
    split; [exact Hs|]. split; [|discriminate]. intros _. split; [reflexivity|].
    apply key_found_at in Hf as (e & He & Heq); [|assumption..]. eauto.
  - exists (insert_at (count_less comp k c) (KeyVal k v) c).
    split; [exact Hrun|].
    split; [split; [intros _ Hk; apply Hhas in Hk; discriminate | reflexivity]|].
    split; [intros [old ->]; reflexivity|]. split; [intros ->; reflexivity|].
    split; [apply sorted_insert_at_count; assumption|]. split; [discriminate|].
    intros _. split; [reflexivity|].
    apply lookup_insert_at_eq, count_less_le_length.
Qed.

Lemma AddIfNew_inserts_only_new_witness :
  comp_transitive idLess /\ sorted idLess [kv 4 "x"] /\
  exists (added : bool) (pos : nat) (out : option Z) (c' : list (idKeyVal Z string)),
    AddIfNew idLess 4 "y" (Some (-1)) [kv 4 "x"] = Done ((added, out), c') /\
    (added = true <-> ~ has_key idLess 4 [kv 4 "x"]) /\
    (is_Some (Some (-1)) -> out = Some (Z.of_nat pos)) /\
    (Some (-1) = None -> out = None) /\
    sorted idLess c' /\
    (added = false ->
       c' = [kv 4 "x"] /\
       exists e, [kv 4 "x"] !! pos = Some e /\ key_equiv idLess (key e) 4 = true) /\
    (added = true ->
       c' = insert_at pos (KeyVal 4 "y") [kv 4 "x"] /\
       c' !! pos = Some (KeyVal 4 "y")).
Proof.
  split; [exact idLess_transitive|].
  split; [apply sortedb_spec; reflexivity|].
  apply (proj1 AddIfNew_inserts_only_new Z string idLess).
  - exact idLess_transitive.
  - apply sortedb_spec. reflexivity.
Defined.

(** ** Remove *)

(** C5. On a sorted map, under a transitive comparator, and for a key [K]
    that no entry compares equal to, [Remove(K)] returns false and leaves
    the map as it is, count and entries; a supplied output position
    receives the index of [FirstGE(K)], at which [Insert] takes [K] and
    keeps the map sorted.  On the map with the keys 1, 3, 5, 7,
    [Remove(3)] returns true and leaves 1, 5, 7; a second [Remove(3)]
    returns false and leaves the map as it is. *)
Theorem Remove_absent_unchanged :
  (forall (Key Value : Type) (comp : Key -> Key -> bool)
          (c : list (idKeyVal Key Value)) (k : Key) (ppos : option Z),
      comp_transitive comp -> sorted comp c -> ~ has_key comp k c ->
      exists (pos : nat) (out : option Z),
        Remove comp k ppos c = Done ((false, out), c) /\
        (r <- Remove comp k ppos ;; Num) c = Num c /\
        (is_Some ppos -> out = Some (Z.of_nat pos)) /\
        (ppos = None -> out = None) /\
        FirstGE comp k c = Done (Z.of_nat pos, c) /\
        (forall v,
           Insert comp k v (Z.of_nat pos) c =
             Done (tt, insert_at pos (KeyVal k v) c) /\
           sorted comp (insert_at pos (KeyVal k v) c) /\
           insert_at pos (KeyVal k v) c !! pos = Some (KeyVal k v))) /\
  (r <- Remove idLess 3 None ;; n <- Num ;; ret (r, n))
    [kv 1 "a"; kv 3 "b"; kv 5 "c"; kv 7 "d"] =
    Done (((true, None), 3), [kv 1 "a"; kv 5 "c"; kv 7 "d"]) /\
  (r <- Remove idLess 3 None ;; n <- Num ;; ret (r, n))
    [kv 1 "a"; kv 5 "c"; kv 7 "d"] =
    Done (((false, None), 3), [kv 1 "a"; kv 5 "c"; kv 7 "d"]) /\
  (r1 <- Remove idLess 3 (Some (-1)) ;; n1 <- Num ;;
   r2 <- Remove idLess 3 (Some (-1)) ;; n2 <- Num ;;
   ret (r1, n1, r2, n2)) [kv 1 "a"; kv 3 "b"; kv 5 "c"; kv 7 "d"] =
  Done (((true, Some 1), 3, (false, Some 1), 3),
        [kv 1 "a"; kv 5 "c"; kv 7 "d"]).
Proof.
  split; [|repeat apply conj; reflexivity].
  intros Key Value comp c k ppos Htrans Hs Habsent.
  pose proof (Remove_run comp Htrans c Hs k ppos) as Hrun.
  assert (Hf : key_found comp k c = false).
  { destruct (key_found comp k c) eqn:Hf; [|reflexivity].
    exfalso. apply Habsent, key_found_has_key; assumption. }
  rewrite Hf in Hrun.
  exists (count_less comp k c), (store_pos ppos (Z.of_nat (count_less comp k c))).
  split; [exact Hrun|].
  split; [unfold bind at 1; rewrite Hrun; reflexivity|].
  split; [intros [old ->]; reflexivity|]. split; [intros ->; reflexivity|].
  split; [apply FirstGE_sorted; assumption|].
  intros v. split; [apply Insert_at_count_run; assumption|].
  split; [apply sorted_insert_at_count; assumption|].
  apply lookup_insert_at_eq, count_less_le_length.
Qed.

Lemma Remove_absent_unchanged_witness :
  comp_transitive idLess /\ sorted idLess [kv 1 "a"; kv 5 "c"; kv 7 "d"] /\
  ~ has_key idLess 3 [kv 1 "a"; kv 5 "c"; kv 7 "d"] /\
  exists (pos : nat) (out : option Z),
    Remove idLess 3 (Some (-1)) [kv 1 "a"; kv 5 "c"; kv 7 "d"] =
      Done ((false, out), [kv 1 "a"; kv 5 "c"; kv 7 "d"]) /\
    (r <- Remove idLess 3 (Some (-1)) ;; Num) [kv 1 "a"; kv 5 "c"; kv 7 "d"] =
      Num [kv 1 "a"; kv 5 "c"; kv 7 "d"] /\
    (is_Some (Some (-1)) -> out = Some (Z.of_nat pos)) /\
    (Some (-1) = None -> out = None) /\
    FirstGE idLess 3 [kv 1 "a"; kv 5 "c"; kv 7 "d"] =
      Done (Z.of_nat pos, [kv 1 "a"; kv 5 "c"; kv 7 "d"]) /\
    (forall v,
       Insert idLess 3 v (Z.of_nat pos) [kv 1 "a"; kv 5 "c"; kv 7 "d"] =
         Done (tt, insert_at pos (KeyVal 3 v) [kv 1 "a"; kv 5 "c"; kv 7 "d"]) /\
       sorted idLess (insert_at pos (KeyVal 3 v) [kv 1 "a"; kv 5 "c"; kv 7 "d"]) /\
       insert_at pos (KeyVal 3 v) [kv 1 "a"; kv 5 "c"; kv 7 "d"] !! pos =
         Some (KeyVal 3 v)).
Proof.
  assert (Hs : sorted idLess [kv 1 "a"; kv 5 "c"; kv 7 "d"])
    by (apply sortedb_spec; reflexivity).
  assert (Habsent : ~ has_key idLess 3 [kv 1 "a"; kv 5 "c"; kv 7 "d"]).
  { intros Hk. apply (key_found_has_key idLess 3 _ idLess_transitive Hs) in Hk.
    discriminate Hk. }
  split; [exact idLess_transitive|]. split; [exact Hs|]. split; [exact Habsent|].
  exact (proj1 Remove_absent_unchanged Z string idLess _ 3 (Some (-1))
           idLess_transitive Hs Habsent).
Defined.

(** ** Round trips and absent keys *)

(** C7. Under a strict weak ordering and on every sorted map, for every
    key [K], value [V] and default: [Set(K, V)] followed by [Get(K)]
    returns [V], and [Remove(K)] followed by [Find(K)] returns [NULL]. *)
Theorem Set_Get_Remove_Find_round_trip :
  forall (Key Value : Type) (comp : Key -> Key -> bool)
         (c : list (idKeyVal Key Value)) (k : Key) (v default : Value)
         (ppos : option Z),
    strict_weak_order comp -> sorted comp c ->
    (exists r c',
       Set_ comp k v ppos c = Done (r, c') /\
       Get comp k default c' = Done (v, c') /\
       (Set_ comp k v ppos ;; Get comp k default) c = Done (v, c')) /\
    (exists r c',
       Remove comp k ppos c = Done (r, c') /\
       Find comp k c' = Done (NULL, c') /\
       (Remove comp k ppos ;; Find comp k) c = Done (NULL, c')).
Proof.
  intros Key Value comp c k v default ppos Hswo Hs.
  pose proof (swo_transitive comp Hswo) as Htrans. split.
  - pose proof (Set_run comp Htrans c Hs k v ppos) as Hrun.
    destruct (Set_effect comp Hswo c Hs k v ppos _ _ k Hrun) as [Hs' Hv].
    rewrite key_equiv_refl in Hv by apply Hswo.
    eexists _, _. split; [exact Hrun|].
    assert (HG : Get comp k default
                   (if key_found comp k c
                    then assign_at (count_less comp k c) v c
                    else insert_at (count_less comp k c) (KeyVal k v) c) =
                 Done (v, if key_found comp k c
                          then assign_at (count_less comp k c) v c
                          else insert_at (count_less comp k c) (KeyVal k v) c)).
    { rewrite Get_lookup_value by assumption. rewrite Hv. reflexivity. }
    split; [exact HG|]. unfold bind. rewrite Hrun. exact HG.
  - pose proof (Remove_run comp Htrans c Hs k ppos) as Hrun.
    destruct (Remove_effect comp Hswo c Hs k ppos _ _ k Hrun) as [Hs' Hv].
    rewrite key_equiv_refl in Hv by apply Hswo.
    eexists _, _. split; [exact Hrun|].
    pose proof (Find_lookup_value comp k _ Htrans Hs') as HF.
    rewrite Hv in HF.
    split; [exact HF|]. unfold bind. rewrite Hrun. exact HF.
Qed.

Lemma Set_Get_Remove_Find_round_trip_witness :
  strict_weak_order idLess /\ sorted idLess [kv 3 "b"; kv 5 "a"] /\
  (exists r c',
     Set_ idLess 4 "x" None [kv 3 "b"; kv 5 "a"] = Done (r, c') /\
     Get idLess 4 EmptyString c' = Done ("x", c') /\
     (Set_ idLess 4 "x" None ;; Get idLess 4 EmptyString) [kv 3 "b"; kv 5 "a"] =
       Done ("x", c')) /\
  (exists r c',
     Remove idLess 4 None [kv 3 "b"; kv 5 "a"] = Done (r, c') /\
     Find idLess 4 c' = Done (NULL, c') /\
     (Remove idLess 4 None ;; Find idLess 4) [kv 3 "b"; kv 5 "a"] =
       Done (NULL, c')).
Proof.
  split; [exact idLess_strict_weak_order|].
  split; [apply sortedb_spec; reflexivity|].
  apply (Set_Get_Remove_Find_round_trip Z string idLess).
  - exact idLess_strict_weak_order.
  - apply sortedb_spec. reflexivity.
Defined.

(** C8. On a sorted map, under a transitive comparator, and for a key [K]
    that no entry compares equal to, the lookups return without a fault
    and leave the map as it is: [Find(K)] is [NULL], [FindIndex(K)] is -1
    and [Get(K, default)] is the default, with [Num()] and every entry as
    before.  [Get(99, "default")] on a map without the key 99 returns
    "default" and [Num()] is as before. *)
Theorem lookup_absent_sentinels :
  (forall (Key Value : Type) (comp : Key -> Key -> bool)
          (c : list (idKeyVal Key Value)) (k : Key) (default : Value),
      comp_transitive comp -> sorted comp c -> ~ has_key comp k c ->
      Find comp k c = Done (NULL, c) /\
      FindIndex comp k c = Done (-1, c) /\
      Get comp k default c = Done (default, c) /\
      (Find comp k ;; Num) c = Num c /\
      (FindIndex comp k ;; Num) c = Num c /\
      (Get comp k default ;; Num) c = Num c) /\
  (n0 <- Num ;; g <- Get idLess 99 "default" ;; n1 <- Num ;; ret (n0, g, n1))
    [kv 1 "a"; kv 5 "c"; kv 7 "d"] =
  Done ((3, "default", 3), [kv 1 "a"; kv 5 "c"; kv 7 "d"]).
Proof.
  split; [|reflexivity].
  intros Key Value comp c k default Htrans Hs Habsent.
  assert (Hf : key_found comp k c = false).
  { destruct (key_found comp k c) eqn:Hf; [|reflexivity].
    exfalso. apply Habsent, key_found_has_key; assumption. }
  pose proof (Find_run comp Htrans c Hs k) as HFind.
  pose proof (FindIndex_run comp Htrans c Hs k) as HIndex.
  pose proof (Get_run comp Htrans c Hs k default) as HGet.
  rewrite Hf in HFind, HIndex, HGet.
  assert (HGet' : Get comp k default c = Done (default, c)).
  { rewrite HGet. destruct (c !! count_less comp k c); reflexivity. }
  split; [exact HFind|]. split; [exact HIndex|]. split; [exact HGet'|].
  unfold bind. rewrite HFind, HIndex, HGet'. repeat split.
Qed.

Lemma lookup_absent_sentinels_witness :
  comp_transitive idLess /\ sorted idLess [kv 1 "a"; kv 5 "c"; kv 7 "d"] /\
  ~ has_key idLess 99 [kv 1 "a"; kv 5 "c"; kv 7 "d"] /\
  Find idLess 99 [kv 1 "a"; kv 5 "c"; kv 7 "d"] =
    Done (NULL, [kv 1 "a"; kv 5 "c"; kv 7 "d"]) /\
  FindIndex idLess 99 [kv 1 "a"; kv 5 "c"; kv 7 "d"] =
    Done (-1, [kv 1 "a"; kv 5 "c"; kv 7 "d"]) /\
  Get idLess 99 "default" [kv 1 "a"; kv 5 "c"; kv 7 "d"] =
    Done ("default", [kv 1 "a"; kv 5 "c"; kv 7 "d"]) /\
  (Find idLess 99 ;; Num) [kv 1 "a"; kv 5 "c"; kv 7 "d"] =
    Num [kv 1 "a"; kv 5 "c"; kv 7 "d"] /\
  (FindIndex idLess 99 ;; Num) [kv 1 "a"; kv 5 "c"; kv 7 "d"] =
    Num [kv 1 "a"; kv 5 "c"; kv 7 "d"] /\
  (Get idLess 99 "default" ;; Num) [kv 1 "a"; kv 5 "c"; kv 7 "d"] =
    Num [kv 1 "a"; kv 5 "c"; kv 7 "d"].
Proof.
  assert (Hs : sorted idLess [kv 1 "a"; kv 5 "c"; kv 7 "d"])
    by (apply sortedb_spec; reflexivity).
  assert (Habsent : ~ has_key idLess 99 [kv 1 "a"; kv 5 "c"; kv 7 "d"]).
  { intros Hk. apply (key_found_has_key idLess 99 _ idLess_transitive Hs) in Hk.
    discriminate Hk. }
  split; [exact idLess_transitive|]. split; [exact Hs|]. split; [exact Habsent|].
  exact (proj1 lookup_absent_sentinels Z string idLess _ 99 "default"
           idLess_transitive Hs Habsent).
Defined.

(** * Further properties of the methods *)

Section More.

Context {Key Value : Type}.
Variable comp : Key -> Key -> bool.
Variable Value_default : Value.

Abbreviation Entry := (idKeyVal Key Value).
Abbreviation Container := (list (idKeyVal Key Value)).

(** ** The search on an arbitrary array *)

(** The loop keeps two facts about its window, whatever the array and the
    comparator are: the entry at [pos], if [pos] is not [-1], is less than
    the key; and the end [pos + span] of the window is the end of the
    array, or the entry there is not less than the key, or the entry just
    before it is not less and lies inside the window. *)
Lemma FirstGE_loop_boundary fuel k (c : Container) : forall pos span probes,
  -1 <= pos -> 1 <= span -> pos + span <= Z.of_nat (length c) ->
  (Z.to_nat span <= fuel)%nat ->
  (pos = -1 \/ exists e, c !! Z.to_nat pos = Some e /\ comp (key e) k = true) ->
  (pos + span = Z.of_nat (length c) \/
   (exists e, c !! Z.to_nat (pos + span) = Some e /\ comp (key e) k = false) \/
   (1 < span /\
    exists e, c !! Z.to_nat (pos + span - 1) = Some e /\ comp (key e) k = false)) ->
  exists r probes',
    FirstGE_loop comp fuel k pos span probes c = Done ((r, probes'), c) /\
    Insert_pre comp k r c.
Proof.
  induction fuel as [|fuel IH]; intros pos span probes Hpos Hspan Hend Hfuel Hlow Hup;
    simpl; destruct (Z.ltb_spec 1 span) as [Hlt|Hge]; try lia.
  - destruct (FirstGE_iter_total comp k c pos span Hpos Hlt Hend)
      as (e & He & Hrange & Hiter).
    pose proof (shiftr_1_bounds span Hlt) as Hstep.
    assert (Hhalf : span - span ≫ 1 = span ≫ 1 \/ span - span ≫ 1 = span ≫ 1 + 1).
    { rewrite Z.shiftr_div_pow2 by lia. change (2 ^ 1) with 2.
      pose proof (Z.div_mod span 2 ltac:(lia)).
      pose proof (Z.mod_pos_bound span 2 ltac:(lia)). lia. }
    unfold bind. rewrite Hiter. cbn [fst snd].
    unfold FirstGE_probe in *.
    destruct (comp (key e) k) eqn:Ecmp.
    + apply IH; try lia.
      * right. eauto.
      * replace (pos + span ≫ 1 + (span - span ≫ 1)) with (pos + span) by lia.
        destruct Hup as [Hup|[Hup|[_ (e' & He' & Hc')]]]; [left; exact Hup | right; left; exact Hup |].
        right. right.
        assert (Hne : pos + span ≫ 1 <> pos + span - 1).
        { intros Heq. rewrite Heq, He' in He. injection He as ->. congruence. }
        split; [lia | eauto].
    + apply IH; try lia.
      * exact Hlow.
      * right. destruct Hhalf as [Hh|Hh]; rewrite Hh.
        -- left. eauto.
        -- right. split; [lia|].
           replace (pos + (span ≫ 1 + 1) - 1) with (pos + span ≫ 1) by lia. eauto.
  - assert (span = 1) as -> by lia. exists (pos + 1), probes.
    split; [reflexivity|]. split; [lia|]. split.
    + destruct Hlow as [->|Hlow]; [left; reflexivity|]. right.
      replace (pos + 1 - 1) with pos by lia. exact Hlow.
    + destruct Hup as [Hup|[Hup|[Hup _]]]; [left; exact Hup | right; exact Hup | lia].
Qed.

(** On every array [FirstGE] returns, leaves the array as it is, and its
    result passes the three [assert]s of [Insert]. *)
Lemma FirstGE_any k (c : Container) :
  exists r, FirstGE comp k c = Done (r, c) /\ Insert_pre comp k r c.
Proof.
  destruct (FirstGE_loop_boundary (Z.to_nat (Z.of_nat (length c) + 1)) k c
              (-1) (Z.of_nat (length c) + 1) []) as (r & probes & Hrun & Hpre);
    try lia.
  exists r. split; [|exact Hpre].
  unfold FirstGE, FirstGE_traced, bind, container_Num. rewrite Hrun. reflexivity.
Qed.

(** The common prefix of the methods on an arbitrary array. *)
Lemma locate_any {A} k (c : Container) (f : Z -> bool -> M Container A) :
  exists r,
    Insert_pre comp k r c /\
    (pos <- FirstGE comp k ;; here <- is_at comp k pos ;; f pos here) c =
    f r (match c !! Z.to_nat r with
         | Some e => negb (comp k (key e))
         | None => false
         end) c.
Proof.
  destruct (FirstGE_any k c) as (r & Hrun & Hpre). exists r. split; [exact Hpre|].
  unfold bind at 1. rewrite Hrun. unfold bind at 1.
  rewrite is_at_run by (destruct Hpre as [? _]; lia). reflexivity.
Qed.

Lemma container_assign_value_run (c : Container) pos e v :
  0 <= pos -> c !! Z.to_nat pos = Some e ->
  container_assign_value pos v c = Done (tt, <[Z.to_nat pos := KeyVal (key e) v]> c).
Proof.
  intros Hpos He. unfold container_assign_value.
  destruct (Z.leb_spec 0 pos); [|lia]. rewrite He. reflexivity.
Qed.

Lemma RemoveIndex_run (c : Container) pos e :
  0 <= pos -> c !! Z.to_nat pos = Some e ->
  RemoveIndex pos c = Done (tt, delete (Z.to_nat pos) c).
Proof.
  intros Hpos He. apply lookup_lt_Some in He.
  unfold RemoveIndex, container_RemoveIndex.
  destruct (Z.leb_spec 0 pos); [|lia].
  destruct (Z.ltb_spec pos (Z.of_nat (length c))); [reflexivity | lia].
Qed.

(** X1. On every array, sorted or not, and for every comparator, a strict
    weak ordering or not, [FirstGE(key)] returns a position that passes the
    three [assert]s of [Insert]: it lies in [0, N], the entry before it, if
    any, is less than the key, and the entry at it, if any, is not less.
    [Insert] at that position therefore never stops at an [assert]. *)
Theorem FirstGE_result_passes_Insert_asserts :
  forall (c : Container) (k : Key) (v : Value),
    exists pos,
      FirstGE comp k c = Done (pos, c) /\
      0 <= pos <= Z.of_nat (length c) /\
      (pos = 0 \/
       exists e, c !! Z.to_nat (pos - 1) = Some e /\ comp (key e) k = true) /\
      (pos = Z.of_nat (length c) \/
       exists e, c !! Z.to_nat pos = Some e /\ comp (key e) k = false) /\
      (pos <- FirstGE comp k ;; Insert comp k v pos) c =
        Done (tt, insert_at (Z.to_nat pos) (KeyVal k v) c).
Proof.
  intros c k v. destruct (FirstGE_any k c) as (r & Hrun & Hpre).
  exists r. split; [exact Hrun|].
  destruct Hpre as (Hrange & Hbefore & Hat).
  split; [exact Hrange|]. split; [exact Hbefore|]. split; [exact Hat|].
  unfold bind. rewrite Hrun. apply Insert_done.
  split; [exact Hrange | split; assumption].
Qed.

(** X2. No method of the map that searches by key ever stops at an
    [assert] or leaves the array, whatever the array (sorted or not) and
    the comparator are.  [Find], [FindIndex] and [Get] return and leave the
    array as it is, and [FindIndex] answers -1 or an index in [0, N);
    [Set], [AddIfNew] and [operator[]] return with the count unchanged or
    larger by one, as their result says; [Remove] returns with the count
    unchanged or smaller by one, as its result says. *)
Theorem key_methods_never_fault :
  forall (c : Container) (k : Key) (v default : Value) (ppos : option Z),
    (exists p, Find comp k c = Done (p, c)) /\
    (exists i, FindIndex comp k c = Done (i, c) /\
               (i = -1 \/ 0 <= i < Z.of_nat (length c))) /\
    (exists x, Get comp k default c = Done (x, c)) /\
    (exists r c', Set_ comp k v ppos c = Done (r, c') /\
                  length c' = (length c + if fst r then 1 else 0)%nat) /\
    (exists r c', AddIfNew comp k v ppos c = Done (r, c') /\
                  length c' = (length c + if fst r then 1 else 0)%nat) /\
    (exists p c', operator_index comp Value_default k c = Done (p, c') /\
                  (length c <= length c' <= length c + 1)%nat) /\
    (exists r c', Remove comp k ppos c = Done (r, c') /\
                  length c = (length c' + if fst r then 1 else 0)%nat).
Proof.
  intros c k v default ppos.
  split; [|split; [|split; [|split; [|split; [|split]]]]].
  - unfold Find. destruct (locate_any k c
      (fun pos here => if here then ret (ElemPtr pos) else ret NULL)) as (r & _ & ->).
    destruct (c !! Z.to_nat r) as [e|]; [destruct (comp k (key e))|]; simpl; eauto.
  - unfold FindIndex. destruct (locate_any k c
      (fun pos here => if here then ret pos else ret (-1))) as (r & Hpre & ->).
    destruct (c !! Z.to_nat r) as [e|] eqn:He;
      [destruct (comp k (key e))|]; simpl; eauto.
    exists r. split; [reflexivity|]. right.
    apply lookup_lt_Some in He. destruct Hpre as [? _]. lia.
  - unfold Get. destruct (locate_any k c
      (fun pos here => if here then e <- container_at pos ;; ret (value e)
                       else ret default)) as (r & Hpre & ->).
    destruct (c !! Z.to_nat r) as [e|] eqn:He;
      [destruct (comp k (key e))|]; simpl; eauto.
    unfold bind. rewrite (container_at_lookup c r e) by (destruct Hpre as [? _]; lia || exact He).
    eauto.
  - unfold Set_. destruct (locate_any k c
      (fun pos here =>
         if here then container_assign_value pos v ;; ret (false, store_pos ppos pos)
         else Insert comp k v pos ;; ret (true, store_pos ppos pos)))
      as (r & Hpre & ->).
    destruct (c !! Z.to_nat r) as [e|] eqn:He;
      [destruct (comp k (key e))|]; simpl; unfold bind.
    + rewrite Insert_done by exact Hpre. eexists _, _. split; [reflexivity|].
      simpl. rewrite length_insert_at. lia.
    + rewrite (container_assign_value_run c r e v) by (destruct Hpre as [? _]; lia || exact He).
      eexists _, _. split; [reflexivity|]. simpl. rewrite length_insert. lia.
    + rewrite Insert_done by exact Hpre. eexists _, _. split; [reflexivity|].
      simpl. rewrite length_insert_at. lia.
  - unfold AddIfNew. destruct (locate_any k c
      (fun pos here =>
         if here then ret (false, store_pos ppos pos)
         else Insert comp k v pos ;; ret (true, store_pos ppos pos)))
      as (r & Hpre & ->).
    destruct (c !! Z.to_nat r) as [e|] eqn:He;
      [destruct (comp k (key e))|]; simpl; unfold bind.
    + rewrite Insert_done by exact Hpre. eexists _, _. split; [reflexivity|].
      simpl. rewrite length_insert_at. lia.
    + eexists _, _. split; [reflexivity|]. simpl. lia.
    + rewrite Insert_done by exact Hpre. eexists _, _. split; [reflexivity|].
      simpl. rewrite length_insert_at. lia.
  - unfold operator_index. destruct (locate_any k c
      (fun pos here =>
         if here then ret (ElemPtr pos)
         else Insert comp k Value_default pos ;; ret (ElemPtr pos)))
      as (r & Hpre & ->).
    destruct (c !! Z.to_nat r) as [e|] eqn:He;
      [destruct (comp k (key e))|]; simpl; unfold bind.
    + rewrite Insert_done by exact Hpre. eexists _, _. split; [reflexivity|].
      rewrite length_insert_at. lia.
    + eexists _, _. split; [reflexivity|]. lia.
    + rewrite Insert_done by exact Hpre. eexists _, _. split; [reflexivity|].
      rewrite length_insert_at. lia.
  - unfold Remove. destruct (locate_any k c
      (fun pos here =>
         if here then RemoveIndex pos ;; ret (true, store_pos ppos pos)
         else ret (false, store_pos ppos pos)))
      as (r & Hpre & ->).
    destruct (c !! Z.to_nat r) as [e|] eqn:He;
      [destruct (comp k (key e))|]; simpl; unfold bind.
    + eexists _, _. split; [reflexivity|]. simpl. lia.
    + rewrite (RemoveIndex_run c r e) by (destruct Hpre as [? _]; lia || exact He).
      eexists _, _. split; [reflexivity|]. simpl.
      rewrite length_delete by eauto. apply lookup_lt_Some in He. lia.
    + eexists _, _. split; [reflexivity|]. simpl. lia.
Qed.

(** ** The methods on a sorted array *)

Lemma has_key_found k (c : Container) :
  comp_transitive comp -> sorted comp c -> has_key comp k c ->
  key_found comp k c = true /\
  exists e, c !! count_less comp k c = Some e /\ key_equiv comp (key e) k = true.
Proof.
  intros Htrans Hs Hk. apply (key_found_has_key comp k c Htrans Hs) in Hk.
  split; [exact Hk|]. apply key_found_at; assumption.
Qed.

Lemma no_key_not_found k (c : Container) :
  comp_transitive comp -> sorted comp c -> ~ has_key comp k c ->
  key_found comp k c = false.
Proof.
  intros Htrans Hs Hk. destruct (key_found comp k c) eqn:Hf; [|reflexivity].
  exfalso. apply Hk, key_found_has_key; assumption.
Qed.

(** On a sorted array only one position passes the [assert]s of
    [Insert]. *)
Lemma Insert_pre_unique k pos (c : Container) :
  comp_transitive comp -> sorted comp c -> Insert_pre comp k pos c ->
  pos = Z.of_nat (count_less comp k c).
Proof.
  intros Htrans Hs (Hrange & Hbefore & Hat).
  pose proof (count_less_le_length comp k c) as Hle.
  assert (Hlow : pos <= Z.of_nat (count_less comp k c)).
  { destruct Hbefore as [->|(e & He & Hc)]; [lia|].
    apply (less_iff_before_count comp k c _ e Htrans Hs He) in Hc. lia. }
  assert (Hhigh : Z.of_nat (count_less comp k c) <= pos).
  { destruct Hat as [->|(e & He & Hc)]; [lia|].
    destruct (Z.le_gt_cases (Z.of_nat (count_less comp k c)) pos) as [|Hgt]; [assumption|].
    assert (Hlt : (Z.to_nat pos < count_less comp k c)%nat) by lia.
    apply (less_iff_before_count comp k c _ e Htrans Hs He) in Hlt. congruence. }
  lia.
Qed.

(** X3. On a sorted map, under a transitive comparator, [Remove(key)] of
    a key that some entry compares equal to returns true, reports the
    index that [FindIndex(key)] gives, and removes exactly the entry
    there: the count goes down by one, the entries before keep their
    index, the entries behind move one slot to the front, and the map
    stays sorted. *)
Theorem Remove_present_removes_entry :
  forall (c : Container) (k : Key) (ppos : option Z),
    comp_transitive comp -> sorted comp c -> has_key comp k c ->
    exists (pos : nat) (e : Entry),
      c !! pos = Some e /\ key_equiv comp (key e) k = true /\
      FindIndex comp k c = Done (Z.of_nat pos, c) /\
      Remove comp k ppos c =
        Done ((true, store_pos ppos (Z.of_nat pos)), delete pos c) /\
      sorted comp (delete pos c) /\
      S (length (delete pos c)) = length c /\
      (forall j, (j < pos)%nat -> delete pos c !! j = c !! j) /\
      (forall j, (pos <= j)%nat -> delete pos c !! j = c !! S j).
Proof.
  intros c k ppos Htrans Hs Hk.
  destruct (has_key_found k c Htrans Hs Hk) as (Hf & e & He & Heq).
  exists (count_less comp k c), e. split; [exact He|]. split; [exact Heq|].
  split; [rewrite FindIndex_run by assumption; rewrite Hf; reflexivity|].
  split; [rewrite Remove_run by assumption; rewrite Hf; reflexivity|].
  split; [apply sorted_delete, Hs|].
  split; [rewrite length_delete by eauto; apply lookup_lt_Some in He; lia|].
  split; [intros j Hj; apply list_lookup_delete_lt, Hj|].
  intros j Hj. apply list_lookup_delete_ge, Hj.
Qed.

(** X4. On a sorted map, under a strict weak ordering, every stored entry
    is found at its own index by its own key and by every key comparing
    equal to it: [FirstGE] and [FindIndex] return the index, [Find] the
    pointer to the entry, and [Get] its value. *)
Theorem stored_entry_is_found :
  forall (c : Container) (i : nat) (e : Entry) (k : Key) (default : Value),
    strict_weak_order comp -> sorted comp c ->
    c !! i = Some e -> key_equiv comp (key e) k = true ->
    key_equiv comp (key e) (key e) = true /\
    FirstGE comp k c = Done (Z.of_nat i, c) /\
    FindIndex comp k c = Done (Z.of_nat i, c) /\
    Find comp k c = Done (ElemPtr (Z.of_nat i), c) /\
    deref (ElemPtr (Z.of_nat i)) c = Done (e, c) /\
    Get comp k default c = Done (value e, c).
Proof.
  intros c i e k default Hswo Hs Hi Heq.
  pose proof (swo_transitive comp Hswo) as Htrans.
  pose proof (equiv_entry_index comp k c i e Hswo Hs Hi Heq) as ->.
  assert (Hf : key_found comp k c = true).
  { apply key_found_at; [assumption..|]. eauto. }
  split; [apply key_equiv_refl, Hswo|].
  split; [apply FirstGE_sorted; assumption|].
  split; [rewrite FindIndex_run by assumption; rewrite Hf; reflexivity|].
  split; [rewrite Find_run by assumption; rewrite Hf; reflexivity|].
  split; [apply container_at_lookup; [lia | rewrite Nat2Z.id; exact Hi]|].
  rewrite Get_run by assumption. rewrite Hi, Hf. reflexivity.
Qed.

(** X5. On a sorted map, under a transitive comparator, [operator[]]
    returns the place of an entry of the resulting map, which stays
    sorted.  When some entry compares equal to the key, the map is left as
    it is and the place is that of such an entry; otherwise the entry
    [{key, Value()}] is inserted, the count goes up by one and the place is
    that of the new entry. *)
Theorem operator_index_finds_or_default :
  forall (c : Container) (k : Key),
    comp_transitive comp -> sorted comp c ->
    exists (pos : nat) (c' : Container) (e : Entry),
      operator_index comp Value_default k c = Done (ElemPtr (Z.of_nat pos), c') /\
      deref (ElemPtr (Z.of_nat pos)) c' = Done (e, c') /\
      sorted comp c' /\
      (has_key comp k c ->
         c' = c /\ key_equiv comp (key e) k = true) /\
      (~ has_key comp k c ->
         c' = insert_at pos (KeyVal k Value_default) c /\
         e = KeyVal k Value_default /\ length c' = S (length c)).
Proof.
  intros c k Htrans Hs.
  pose proof (operator_index_run comp Value_default Htrans c Hs k) as Hrun.
  pose proof (key_found_has_key comp k c Htrans Hs) as Hhas.
  pose proof (count_less_le_length comp k c) as Hle.
  exists (count_less comp k c).
  destruct (key_found comp k c) eqn:Hf.
  - apply key_found_at in Hf as (e & He & Heq); [|assumption..].
    exists c, e. split; [exact Hrun|].
    split; [apply container_at_lookup; [lia | rewrite Nat2Z.id; exact He]|].
    split; [exact Hs|]. split; [intros _; split; [reflexivity | exact Heq]|].
    intros Hn. exfalso. apply Hn, Hhas. reflexivity.
  - exists (insert_at (count_less comp k c) (KeyVal k Value_default) c),
      (KeyVal k Value_default).
    split; [exact Hrun|].
    split; [apply container_at_lookup;
            [lia | rewrite Nat2Z.id; apply lookup_insert_at_eq, Hle]|].
    split; [apply sorted_insert_at_count; assumption|].
    split; [intros Hk; apply Hhas in Hk; discriminate|].
    intros _. split; [reflexivity|]. split; [reflexivity | apply length_insert_at].
Qed.

(** X6. On a sorted map, under a transitive comparator, the three
    conditions that [Insert(key, value, pos)] asserts hold together for
    exactly one position, the one that [FirstGE(key)] returns; at that
    position [Insert] returns with the entry put in front of it.  (At any
    other position one of the asserted conditions is false; what [Insert]
    then does depends on whether the [assert]s are compiled in, and is not
    stated here.) *)
Theorem Insert_asserts_hold_only_at_FirstGE_position :
  forall (c : Container) (k : Key) (v : Value) (pos : Z),
    comp_transitive comp -> sorted comp c ->
    exists p,
      FirstGE comp k c = Done (p, c) /\
      ((0 <= pos <= Z.of_nat (length c) /\
        (pos = 0 \/
         exists e, c !! Z.to_nat (pos - 1) = Some e /\ comp (key e) k = true) /\
        (pos = Z.of_nat (length c) \/
         exists e, c !! Z.to_nat pos = Some e /\ comp (key e) k = false))
       <-> pos = p) /\
      Insert comp k v p c = Done (tt, insert_at (Z.to_nat p) (KeyVal k v) c).
Proof.
  intros c k v pos Htrans Hs. exists (Z.of_nat (count_less comp k c)).
  split; [apply FirstGE_sorted; assumption|]. split.
  - split.
    + intros Hpre. apply Insert_pre_unique; assumption.
    + intros ->. apply (Insert_pre_at_count comp k c Htrans Hs).
  - apply Insert_done, Insert_pre_at_count; assumption.
Qed.

(** X7. On a sorted map, under a transitive comparator, [Insert] of a key
    that some entry compares equal to, at the position that [FirstGE]
    returns for it, passes every [assert] and puts the new entry right
    before the old one: the two keys compare equal and the map is not
    sorted any more. *)
Theorem Insert_of_present_key_duplicates :
  forall (c : Container) (k : Key) (v : Value),
    comp_transitive comp -> sorted comp c -> has_key comp k c ->
    exists (pos : nat) (c' : Container) (e : Entry),
      (p <- FirstGE comp k ;; Insert comp k v p) c = Done (tt, c') /\
      c !! pos = Some e /\
      c' !! pos = Some (KeyVal k v) /\ c' !! S pos = Some e /\
      key_equiv comp k (key e) = true /\
      ~ sorted comp c'.
Proof.
  intros c k v Htrans Hs Hk.
  destruct (has_key_found k c Htrans Hs Hk) as (Hf & e & He & Heq).
  pose proof (count_less_le_length comp k c) as Hle.
  exists (count_less comp k c), (insert_at (count_less comp k c) (KeyVal k v) c), e.
  split.
  { unfold bind. rewrite FirstGE_sorted by assumption.
    rewrite Insert_done by (apply Insert_pre_at_count; assumption).
    rewrite Nat2Z.id. reflexivity. }
  split; [exact He|].
  assert (H1 : insert_at (count_less comp k c) (KeyVal k v) c !! count_less comp k c =
               Some (KeyVal k v)) by (apply lookup_insert_at_eq, Hle).
  assert (H2 : insert_at (count_less comp k c) (KeyVal k v) c !! S (count_less comp k c) =
               Some e) by (rewrite lookup_insert_at_ge by lia; exact He).
  split; [exact H1|]. split; [exact H2|].
  split; [rewrite key_equiv_sym; exact Heq|].
  intros Hs'. apply key_equiv_true in Heq as [_ Hke].
  specialize (Hs' _ _ _ _ (Nat.lt_succ_diag_r _) H1 H2). simpl in Hs'. congruence.
Qed.

(** X8. On a sorted map, under a transitive comparator, and for a key that
    no entry compares equal to, [Insert] at the position of [FirstGE],
    [Set] and [AddIfNew] build the same sorted map, and so does
    [operator[]] when the value is [Value()]. *)
Theorem absent_key_insertions_agree :
  forall (c : Container) (k : Key) (v : Value) (ppos : option Z),
    comp_transitive comp -> sorted comp c -> ~ has_key comp k c ->
    exists (c' : Container),
      (p <- FirstGE comp k ;; Insert comp k v p) c = Done (tt, c') /\
      (exists out, Set_ comp k v ppos c = Done ((true, out), c')) /\
      (exists out, AddIfNew comp k v ppos c = Done ((true, out), c')) /\
      (v = Value_default ->
       exists p, operator_index comp Value_default k c = Done (p, c')) /\
      sorted comp c' /\ length c' = S (length c).
Proof.
  intros c k v ppos Htrans Hs Hk.
  pose proof (no_key_not_found k c Htrans Hs Hk) as Hf.
  exists (insert_at (count_less comp k c) (KeyVal k v) c).
  split.
  { unfold bind. rewrite FirstGE_sorted by assumption.
    rewrite Insert_done by (apply Insert_pre_at_count; assumption).
    rewrite Nat2Z.id. reflexivity. }
  split; [rewrite Set_run by assumption; rewrite Hf; eauto|].
  split; [rewrite AddIfNew_run by assumption; rewrite Hf; eauto|].
  split; [intros ->; rewrite operator_index_run by assumption; rewrite Hf; eauto|].
  split; [apply sorted_insert_at_count; assumption | apply length_insert_at].
Qed.

(** X9. On a sorted map, under a transitive comparator, and for a key that
    some entry compares equal to, [RemoveIndex] at the index that
    [FindIndex] returns leaves the same map as [Remove]. *)
Theorem RemoveIndex_of_FindIndex_is_Remove :
  forall (c : Container) (k : Key) (ppos : option Z),
    comp_transitive comp -> sorted comp c -> has_key comp k c ->
    exists (out : option Z) (c' : Container),
      Remove comp k ppos c = Done ((true, out), c') /\
      (i <- FindIndex comp k ;; RemoveIndex i) c = Done (tt, c').
Proof.
  intros c k ppos Htrans Hs Hk.
  destruct (has_key_found k c Htrans Hs Hk) as (Hf & e & He & Heq).
  eexists _, _. split; [rewrite Remove_run by assumption; rewrite Hf; reflexivity|].
  unfold bind. rewrite FindIndex_run by assumption. rewrite Hf.
  rewrite (RemoveIndex_run c _ e) by (lia || rewrite Nat2Z.id; exact He).
  rewrite Nat2Z.id. reflexivity.
Qed.

(** ** Sequences of calls *)

Lemma equiv_entry_located k (c : Container) i e :
  strict_weak_order comp -> sorted comp c ->
  c !! i = Some e -> key_equiv comp (key e) k = true ->
  count_less comp k c = i /\ key_found comp k c = true.
Proof.
  intros Hswo Hs Hi Heq.
  pose proof (equiv_entry_index comp k c i e Hswo Hs Hi Heq) as ->.
  split; [reflexivity|]. apply key_found_at; [apply Hswo | exact Hs |]. eauto.
Qed.

Lemma assign_at_assign_at p v1 v2 (c : Container) :
  assign_at p v2 (assign_at p v1 c) = assign_at p v2 c.
Proof.
  unfold assign_at. destruct (c !! p) as [e|] eqn:He; [|rewrite He; reflexivity].
  rewrite list_lookup_insert_eq by (apply lookup_lt_Some in He; exact He).
  simpl. apply list_insert_insert_eq.
Qed.

Lemma assign_at_insert_at p k v1 v2 (c : Container) :
  (p <= length c)%nat ->
  assign_at p v2 (insert_at p (KeyVal k v1) c) = insert_at p (KeyVal k v2) c.
Proof.
  intros Hp. unfold assign_at. rewrite lookup_insert_at_eq by exact Hp. simpl.
  unfold insert_at.
  rewrite insert_app_r_alt by (rewrite length_take_le by exact Hp; lia).
  rewrite length_take_le by exact Hp. rewrite Nat.sub_diag. reflexivity.
Qed.

Lemma delete_insert_at p e (c : Container) :
  (p <= length c)%nat -> delete p (insert_at p e c) = c.
Proof.
  intros Hp. apply list_eq. intros j. rewrite list_lookup_delete. case_decide.
  - apply lookup_insert_at_lt; assumption.
  - apply lookup_insert_at_ge. lia.
Qed.

Lemma insert_at_delete p e (c : Container) :
  c !! p = Some e -> insert_at p e (delete p c) = c.
Proof.
  intros He. pose proof (lookup_lt_Some _ _ _ He) as Hlt.
  assert (Hlen : (p <= length (delete p c))%nat).
  { rewrite length_delete by eauto. lia. }
  apply list_eq. intros j.
  destruct (lt_eq_lt_dec j p) as [[Hj| ->]|Hj].
  - rewrite lookup_insert_at_lt by assumption. apply list_lookup_delete_lt, Hj.
  - rewrite lookup_insert_at_eq by exact Hlen. symmetry. exact He.
  - destruct j as [|j]; [lia|]. rewrite lookup_insert_at_ge by lia.
    apply list_lookup_delete_ge. lia.
Qed.

Lemma count_less_delete k i e (c : Container) :
  c !! i = Some e -> comp (key e) k = false ->
  count_less comp k (delete i c) = count_less comp k c.
Proof.
  revert i. induction c as [|e0 c IH]; intros i He Hc; [reflexivity|].
  destruct i as [|i]; simpl in *.
  - injection He as ->. rewrite count_less_cons, Hc. reflexivity.
  - rewrite !count_less_cons. f_equal. apply (IH i); assumption.
Qed.

(** X10. On a sorted map, under a strict weak ordering, the last of two
    calls of [Set] for the same key wins: [Set(key, v1)] followed by
    [Set(key, v2)] leaves the map that [Set(key, v2)] alone leaves, reports
    the same position, and the second call returns false. *)
Theorem Set_twice_last_wins :
  forall (c : Container) (k : Key) (v1 v2 : Value) (ppos1 ppos : option Z),
    strict_weak_order comp -> sorted comp c ->
    exists (added : bool) (out : option Z) (c' : Container),
      Set_ comp k v2 ppos c = Done ((added, out), c') /\
      (Set_ comp k v1 ppos1 ;; Set_ comp k v2 ppos) c = Done ((false, out), c').
Proof.
  intros c k v1 v2 ppos1 ppos Hswo Hs.
  pose proof (swo_transitive comp Hswo) as Htrans.
  pose proof (count_less_le_length comp k c) as Hle.
  pose proof (Set_run comp Htrans c Hs k v1 ppos1) as Hrun1.
  pose proof (Set_run comp Htrans c Hs k v2 ppos) as Hrun2.
  destruct (Set_effect comp Hswo c Hs k v1 ppos1 _ _ k Hrun1) as [Hs1 _].
  eexists _, _, _. split; [exact Hrun2|].
  unfold bind. rewrite Hrun1. clear Hrun1 Hrun2.
  destruct (key_found comp k c) eqn:Hf.
  - apply key_found_at in Hf as (e & He & Heq); [|assumption..].
    destruct (equiv_entry_located k (assign_at (count_less comp k c) v1 c)
                (count_less comp k c) (KeyVal (key e) v1) Hswo Hs1) as [Hp Hf1].
    { apply lookup_assign_at_eq, He. }
    { exact Heq. }
    rewrite Set_run by assumption. rewrite Hp, Hf1. simpl.
    rewrite assign_at_assign_at. reflexivity.
  - destruct (equiv_entry_located k (insert_at (count_less comp k c) (KeyVal k v1) c)
                (count_less comp k c) (KeyVal k v1) Hswo Hs1) as [Hp Hf1].
    { apply lookup_insert_at_eq, Hle. }
    { apply key_equiv_refl, Hswo. }
    rewrite Set_run by assumption. rewrite Hp, Hf1. simpl.
    rewrite assign_at_insert_at by exact Hle. reflexivity.
Qed.

(** X11. On a sorted map, under a strict weak ordering, and for a key that
    no entry compares equal to: [Set(key, value)] followed by
    [Remove(key)] gives back the map as it was, and [Remove] returns
    true. *)
Theorem Set_then_Remove_restores :
  forall (c : Container) (k : Key) (v : Value) (ppos1 ppos : option Z),
    strict_weak_order comp -> sorted comp c -> ~ has_key comp k c ->
    exists out,
      (Set_ comp k v ppos1 ;; Remove comp k ppos) c = Done ((true, out), c).
Proof.
  intros c k v ppos1 ppos Hswo Hs Hk.
  pose proof (swo_transitive comp Hswo) as Htrans.
  pose proof (count_less_le_length comp k c) as Hle.
  pose proof (no_key_not_found k c Htrans Hs Hk) as Hf.
  pose proof (sorted_insert_at_count comp Htrans c Hs k v Hf) as Hs1.
  destruct (equiv_entry_located k (insert_at (count_less comp k c) (KeyVal k v) c)
              (count_less comp k c) (KeyVal k v) Hswo Hs1) as [Hp Hf1].
  { apply lookup_insert_at_eq, Hle. }
  { apply key_equiv_refl, Hswo. }
  eexists. unfold bind. rewrite Set_run by assumption. rewrite Hf.
  rewrite Remove_run by assumption. rewrite Hp, Hf1.
  rewrite delete_insert_at by exact Hle. reflexivity.
Qed.

(** X12. On a sorted map, under a strict weak ordering: [Remove] of the
    key of a stored entry followed by [Set] of that key and value gives
    back the map as it was; [Set] returns true and reports the index the
    entry had. *)
Theorem Remove_then_Set_restores :
  forall (c : Container) (i : nat) (e : Entry) (ppos1 : option Z) (old : Z),
    strict_weak_order comp -> sorted comp c -> c !! i = Some e ->
    (Remove comp (key e) ppos1 ;; Set_ comp (key e) (value e) (Some old)) c =
      Done ((true, Some (Z.of_nat i)), c).
Proof.
  intros c i e ppos1 old Hswo Hs He.
  pose proof (swo_transitive comp Hswo) as Htrans.
  pose proof (key_equiv_refl comp (key e) (swo_irreflexive comp Hswo)) as Hrefl.
  destruct (equiv_entry_located (key e) c i e Hswo Hs He Hrefl) as [Hp Hf].
  pose proof (Remove_run comp Htrans c Hs (key e) ppos1) as Hrun.
  rewrite Hp, Hf in Hrun.
  destruct (Remove_effect comp Hswo c Hs (key e) ppos1 _ _ (key e) Hrun) as [Hs1 Hv].
  rewrite Hrefl in Hv. apply key_not_found_lookup_value in Hv.
  assert (Hp1 : count_less comp (key e) (delete i c) = i).
  { rewrite (count_less_delete (key e) i e c He); [exact Hp|].
    apply (swo_irreflexive comp Hswo). }
  unfold bind. rewrite Hrun. rewrite Set_run by assumption.
  rewrite Hp1, Hv. simpl. destruct e as [ke ve]. simpl.
  rewrite insert_at_delete by exact He. reflexivity.
Qed.

(** X13. On a sorted map, under a strict weak ordering, a call of [Set],
    [AddIfNew], [operator[]] or [Remove] for a key [k] does not change
    what [Get] returns for a key that does not compare equal to [k]. *)
Theorem other_keys_keep_their_value :
  forall (c : Container) (k x : Key) (v default : Value) (ppos : option Z),
    strict_weak_order comp -> sorted comp c -> key_equiv comp k x = false ->
    exists g,
      Get comp x default c = Done (g, c) /\
      (exists c', (Set_ comp k v ppos ;; Get comp x default) c = Done (g, c')) /\
      (exists c', (AddIfNew comp k v ppos ;; Get comp x default) c = Done (g, c')) /\
      (exists c', (operator_index comp Value_default k ;; Get comp x default) c =
                    Done (g, c')) /\
      (exists c', (Remove comp k ppos ;; Get comp x default) c = Done (g, c')).
Proof.
  intros c k x v default ppos Hswo Hs Hkx.
  pose proof (swo_transitive comp Hswo) as Htrans.
  exists (match lookup_value comp x c with Some w => w | None => default end).
  split; [apply Get_lookup_value; assumption|].
  split; [|split; [|split]]; eexists; unfold bind.
  - pose proof (Set_run comp Htrans c Hs k v ppos) as Hrun.
    destruct (Set_effect comp Hswo c Hs k v ppos _ _ x Hrun) as [Hs1 Hv].
    rewrite Hrun. rewrite Get_lookup_value by assumption.
    rewrite Hv, Hkx. reflexivity.
  - pose proof (AddIfNew_run comp Htrans c Hs k v ppos) as Hrun.
    destruct (AddIfNew_effect comp Hswo c Hs k v ppos _ _ x Hrun) as [Hs1 Hv].
    rewrite Hrun. rewrite Get_lookup_value by assumption.
    rewrite Hv, Hkx. reflexivity.
  - pose proof (operator_index_run comp Value_default Htrans c Hs k) as Hrun.
    destruct (operator_index_effect comp Value_default Hswo c Hs k _ _ x Hrun) as [Hs1 Hv].
    rewrite Hrun. rewrite Get_lookup_value by assumption.
    rewrite Hv, Hkx. reflexivity.
  - pose proof (Remove_run comp Htrans c Hs k ppos) as Hrun.
    destruct (Remove_effect comp Hswo c Hs k ppos _ _ x Hrun) as [Hs1 Hv].
    rewrite Hrun. rewrite Get_lookup_value by assumption.
    rewrite Hv, Hkx. reflexivity.
Qed.

(** ** The order of the keys and the positions *)

Lemma equiv_then_less a k1 k2 :
  strict_weak_order comp ->
  key_equiv comp a k1 = true -> comp k1 k2 = true -> comp a k2 = true.
Proof.
  intros [Hirr Htrans Heqv] Ha H12.
  destruct (comp a k2) eqn:E; [reflexivity|]. exfalso.
  destruct (comp k2 a) eqn:E'.
  - apply key_equiv_true in Ha as [_ Hk1a].
    rewrite (Htrans k1 k2 a H12 E') in Hk1a. discriminate.
  - assert (Hak2 : key_equiv comp a k2 = true) by (apply key_equiv_true; auto).
    assert (H : key_equiv comp k1 k2 = true).
    { apply (Heqv _ a); [rewrite key_equiv_sym; exact Ha | exact Hak2]. }
    apply key_equiv_true in H as [H _]. congruence.
Qed.

Lemma less_congr a k1 k2 :
  strict_weak_order comp ->
  key_equiv comp k1 k2 = true -> comp a k1 = comp a k2.
Proof.
  intros Hswo H12.
  assert (Hone : forall x y, key_equiv comp x y = true ->
                   comp a x = true -> comp a y = true).
  { intros x y Hxy Hax. destruct (comp a y) eqn:E; [reflexivity|]. exfalso.
    destruct (comp y a) eqn:E'.
    - apply key_equiv_true in Hxy as [_ Hyx].
      rewrite (swo_transitive comp Hswo y a x E' Hax) in Hyx. discriminate.
    - assert (Hay : key_equiv comp a y = true) by (apply key_equiv_true; auto).
      assert (H : key_equiv comp a x = true).
      { apply (swo_equiv_transitive comp Hswo _ y);
          [exact Hay | rewrite key_equiv_sym; exact Hxy]. }
      apply key_equiv_true in H as [H _]. congruence. }
  destruct (comp a k1) eqn:E1, (comp a k2) eqn:E2; try reflexivity.
  - rewrite <- E2. symmetry. apply (Hone k1 k2); assumption.
  - rewrite <- E1. apply (Hone k2 k1); [rewrite key_equiv_sym|]; assumption.
Qed.

Lemma count_less_mono k1 k2 (c : Container) :
  (forall a, comp a k1 = true -> comp a k2 = true) ->
  (count_less comp k1 c <= count_less comp k2 c)%nat.
Proof.
  intros H. induction c as [|e c IH]; [reflexivity|].
  rewrite !count_less_cons. destruct (comp (key e) k1) eqn:E1.
  - rewrite (H _ E1). lia.
  - destruct (comp (key e) k2); lia.
Qed.

Lemma count_less_ext k1 k2 (c : Container) :
  (forall a, comp a k1 = comp a k2) ->
  count_less comp k1 c = count_less comp k2 c.
Proof.
  intros H. induction c as [|e c IH]; [reflexivity|].
  rewrite !count_less_cons, H, IH. reflexivity.
Qed.

(** X14. On a sorted map, under a strict weak ordering, [FirstGE] follows
    the order of the keys: a smaller key gets a position that is not
    larger, and a strictly smaller one when some entry compares equal to
    it; keys that compare equal get the same position. *)
Theorem FirstGE_monotone :
  forall (c : Container) (k1 k2 : Key),
    strict_weak_order comp -> sorted comp c ->
    exists p1 p2,
      FirstGE comp k1 c = Done (p1, c) /\
      FirstGE comp k2 c = Done (p2, c) /\
      (comp k1 k2 = true -> p1 <= p2) /\
      (comp k1 k2 = true -> has_key comp k1 c -> p1 < p2) /\
      (key_equiv comp k1 k2 = true -> p1 = p2).
Proof.
  intros c k1 k2 Hswo Hs. pose proof (swo_transitive comp Hswo) as Htrans.
  exists (Z.of_nat (count_less comp k1 c)), (Z.of_nat (count_less comp k2 c)).
  split; [apply FirstGE_sorted; assumption|].
  split; [apply FirstGE_sorted; assumption|].
  split; [|split].
  - intros H12. apply inj_le, count_less_mono.
    intros a Ha. apply (Htrans a k1 k2); assumption.
  - intros H12 Hk.
    destruct (has_key_found k1 c Htrans Hs Hk) as (_ & e & He & Heq).
    pose proof (equiv_then_less _ _ _ Hswo Heq H12) as Hlt.
    apply (less_iff_before_count comp k2 c _ e Htrans Hs He) in Hlt. lia.
  - intros H12. f_equal. apply count_less_ext.
    intros a. apply less_congr; assumption.
Qed.

(** X15. On a sorted map, under a strict weak ordering, the position that
    [Set] and [AddIfNew] write through the output pointer is the index
    that [FindIndex] returns for the key right after the call. *)
Theorem reported_position_is_FindIndex :
  forall (c : Container) (k : Key) (v : Value) (old : Z),
    strict_weak_order comp -> sorted comp c ->
    (exists added pos c',
       Set_ comp k v (Some old) c = Done ((added, Some pos), c') /\
       FindIndex comp k c' = Done (pos, c')) /\
    (exists added pos c',
       AddIfNew comp k v (Some old) c = Done ((added, Some pos), c') /\
       FindIndex comp k c' = Done (pos, c')).
Proof.
  intros c k v old Hswo Hs. pose proof (swo_transitive comp Hswo) as Htrans.
  pose proof (count_less_le_length comp k c) as Hle.
  assert (Hfind : forall (c' : Container) e',
            sorted comp c' -> c' !! count_less comp k c = Some e' ->
            key_equiv comp (key e') k = true ->
            FindIndex comp k c' = Done (Z.of_nat (count_less comp k c), c')).
  { intros c' e' Hs' He' Heq.
    destruct (equiv_entry_located k c' _ e' Hswo Hs' He' Heq) as [Hp Hf].
    rewrite FindIndex_run by assumption. rewrite Hp, Hf. reflexivity. }
  split.
  - pose proof (Set_run comp Htrans c Hs k v (Some old)) as Hrun.
    destruct (Set_effect comp Hswo c Hs k v _ _ _ k Hrun) as [Hs1 _].
    eexists _, _, _. split; [exact Hrun|]. clear Hrun.
    destruct (key_found comp k c) eqn:Hf.
    + apply key_found_at in Hf as (e & He & Heq); [|assumption..].
      apply (Hfind _ (KeyVal (key e) v)); [exact Hs1 | | exact Heq].
      apply lookup_assign_at_eq, He.
    + apply (Hfind _ (KeyVal k v)); [exact Hs1 | |apply key_equiv_refl, Hswo].
      apply lookup_insert_at_eq, Hle.
  - pose proof (AddIfNew_run comp Htrans c Hs k v (Some old)) as Hrun.
    destruct (AddIfNew_effect comp Hswo c Hs k v _ _ _ k Hrun) as [Hs1 _].
    eexists _, _, _. split; [exact Hrun|]. clear Hrun.
    destruct (key_found comp k c) eqn:Hf.
    + apply key_found_at in Hf as (e & He & Heq); [|assumption..].
      apply (Hfind _ e); assumption.
    + apply (Hfind _ (KeyVal k v)); [exact Hs1 | |apply key_equiv_refl, Hswo].
      apply lookup_insert_at_eq, Hle.
Qed.

(** X16. On a sorted map, under a strict weak ordering, the first of two
    calls of [AddIfNew] for the same key wins: the second call returns
    false and leaves the map of the first, and [Get(key)] afterwards
    returns what [Get(key, v1)] returned before the calls, that is, the
    value that was there, or [v1]. *)
Theorem AddIfNew_twice_first_wins :
  forall (c : Container) (k : Key) (v1 v2 default : Value) (ppos1 ppos : option Z),
    strict_weak_order comp -> sorted comp c ->
    exists (r : bool * option Z) (c' : Container) (out : option Z) (g : Value),
      AddIfNew comp k v1 ppos1 c = Done (r, c') /\
      (AddIfNew comp k v1 ppos1 ;; AddIfNew comp k v2 ppos) c =
        Done ((false, out), c') /\
      Get comp k v1 c = Done (g, c) /\
      Get comp k default c' = Done (g, c').
Proof.
  intros c k v1 v2 default ppos1 ppos Hswo Hs.
  pose proof (swo_transitive comp Hswo) as Htrans.
  pose proof (count_less_le_length comp k c) as Hle.
  pose proof (AddIfNew_run comp Htrans c Hs k v1 ppos1) as Hrun.
  destruct (AddIfNew_effect comp Hswo c Hs k v1 _ _ _ k Hrun) as [Hs1 Hv].
  rewrite key_equiv_refl in Hv by apply Hswo.
  eexists _, _, _, _. split; [exact Hrun|].
  split; [|split; [apply Get_lookup_value; assumption|]].
  - unfold bind. rewrite Hrun. rewrite AddIfNew_run by assumption.
    assert (Hf1 : key_found comp k
                    (if key_found comp k c then c
                     else insert_at (count_less comp k c) (KeyVal k v1) c) = true).
    { apply key_found_lookup_value. rewrite Hv.
      destruct (lookup_value comp k c); eauto. }
    rewrite Hf1. simpl. reflexivity.
  - rewrite Get_lookup_value by assumption. rewrite Hv.
    destruct (lookup_value comp k c); reflexivity.
Qed.

(** ** Calls for different keys *)

(** A sorted array is determined by its entries. *)
Lemma sorted_ext (l1 : Container) : forall (l2 : Container),
  comp_irreflexive comp -> comp_transitive comp ->
  sorted comp l1 -> sorted comp l2 ->
  (forall e, e ∈ l1 <-> e ∈ l2) -> l1 = l2.
Proof.
  induction l1 as [|a l1 IH]; intros l2 Hirr Htrans Hs1 Hs2 Hel.
  - destruct l2 as [|b l2]; [reflexivity|].
    exfalso. apply (elem_of_nil b), Hel. left.
  - destruct l2 as [|b l2].
    { exfalso. apply (elem_of_nil a), Hel. left. }
    apply sorted_cons in Hs1 as [Hhd1 Htl1]. apply sorted_cons in Hs2 as [Hhd2 Htl2].
    assert (Hnot1 : forall e, e ∈ l1 -> e <> a).
    { intros e He ->. specialize (Hhd1 a He). rewrite Hirr in Hhd1. discriminate. }
    assert (Hnot2 : forall e, e ∈ l2 -> e <> b).
    { intros e He ->. specialize (Hhd2 b He). rewrite Hirr in Hhd2. discriminate. }
    assert (Hab : a = b).
    { assert (Ha : a ∈ b :: l2) by (apply Hel; left).
      assert (Hb : b ∈ a :: l1) by (apply Hel; left).
      apply elem_of_cons in Ha as [Ha|Ha]; [exact Ha|].
      apply elem_of_cons in Hb as [Hb|Hb]; [symmetry; exact Hb|].
      exfalso. pose proof (Htrans _ _ _ (Hhd1 b Hb) (Hhd2 a Ha)) as Haa.
      rewrite Hirr in Haa. discriminate. }
    subst b. f_equal. apply IH; try assumption.
    intros e. split; intros He.
    + assert (H : e ∈ a :: l2) by (apply Hel; right; exact He).
      apply elem_of_cons in H as [->|H]; [|exact H].
      exfalso. apply (Hnot1 a He). reflexivity.
    + assert (H : e ∈ a :: l1) by (apply Hel; right; exact He).
      apply elem_of_cons in H as [->|H]; [|exact H].
      exfalso. apply (Hnot2 a He). reflexivity.
Qed.

Lemma stored_key_found k (c : Container) e :
  c !! count_less comp k c = Some e -> key_found comp k c = true ->
  stored_key comp k c = key e.
Proof.
  unfold stored_key, key_found. intros ->. intros ->. reflexivity.
Qed.

Lemma stored_key_not_found k (c : Container) :
  key_found comp k c = false -> stored_key comp k c = k.
Proof.
  unfold stored_key, key_found. destruct (c !! count_less comp k c); [|reflexivity].
  intros ->. reflexivity.
Qed.

Lemma stored_key_equiv k (c : Container) :
  strict_weak_order comp -> sorted comp c ->
  key_equiv comp (stored_key comp k c) k = true.
Proof.
  intros Hswo Hs. destruct (key_found comp k c) eqn:Hf.
  - pose proof Hf as Hf'.
    apply key_found_at in Hf as (e & He & Heq); [|apply Hswo | exact Hs].
    rewrite (stored_key_found k c e He Hf'). exact Heq.
  - rewrite stored_key_not_found by exact Hf. apply key_equiv_refl, Hswo.
Qed.

(** The array that [Set(k, v)] leaves. *)
Lemma Set_leaves k v ppos (c : Container) :
  comp_transitive comp -> sorted comp c ->
  exists r,
    Set_ comp k v ppos c =
      Done (r, if key_found comp k c then assign_at (count_less comp k c) v c
               else insert_at (count_less comp k c) (KeyVal k v) c).
Proof. intros Htrans Hs. rewrite Set_run by assumption. eauto. Qed.

(** Its entries: the entry for [k], and the old entries whose key does
    not compare equal to [k]. *)
Lemma Set_entries k v (c : Container) e' :
  strict_weak_order comp -> sorted comp c ->
  e' ∈ (if key_found comp k c then assign_at (count_less comp k c) v c
        else insert_at (count_less comp k c) (KeyVal k v) c) <->
  e' = KeyVal (stored_key comp k c) v \/
  (e' ∈ c /\ key_equiv comp (key e') k = false).
Proof.
  intros Hswo Hs. pose proof (swo_transitive comp Hswo) as Htrans.
  destruct (key_found comp k c) eqn:Hf.
  - pose proof Hf as Hf'.
    apply key_found_at in Hf as (e & He & Heq); [|assumption..].
    rewrite (stored_key_found k c e He Hf'). unfold assign_at. rewrite He.
    rewrite elem_of_assign_iff by (apply lookup_lt_Some in He; exact He).
    split; (intros [H|H]; [left; exact H | right]).
    + destruct H as (j & Hne & Hj). split; [apply list_elem_of_lookup; eauto|].
      destruct (key_equiv comp (key e') k) eqn:E; [|reflexivity].
      exfalso. apply Hne. apply (equiv_entry_index comp k c j e' Hswo Hs Hj E).
    + destruct H as ([j Hj]%list_elem_of_lookup & Hne).
      exists j. split; [|exact Hj]. intros ->. rewrite He in Hj. injection Hj as ->.
      congruence.
  - rewrite stored_key_not_found by exact Hf. rewrite (elem_of_insert_at comp).
    split; (intros [H|H]; [left; exact H | right]).
    + split; [exact H|]. destruct (key_equiv comp (key e') k) eqn:E; [|reflexivity].
      exfalso. assert (Hk : has_key comp k c) by (exists e'; auto).
      apply (key_found_has_key comp k c Htrans Hs) in Hk. congruence.
    + apply H.
Qed.

(** [Set] for a key that does not compare equal to [k2] does not change
    the key under which [k2] is stored. *)
Lemma stored_key_Set_other k1 v1 k2 (c : Container) :
  strict_weak_order comp -> sorted comp c -> key_equiv comp k1 k2 = false ->
  stored_key comp k2
    (if key_found comp k1 c then assign_at (count_less comp k1 c) v1 c
     else insert_at (count_less comp k1 c) (KeyVal k1 v1) c) =
  stored_key comp k2 c.
Proof.
  intros Hswo Hs H12. pose proof (swo_transitive comp Hswo) as Htrans.
  destruct (Set_leaves k1 v1 None c Htrans Hs) as [r Hrun].
  destruct (Set_effect comp Hswo c Hs k1 v1 None _ _ k2 Hrun) as [Hs1 _].
  set (c1 := if key_found comp k1 c then assign_at (count_less comp k1 c) v1 c
             else insert_at (count_less comp k1 c) (KeyVal k1 v1) c) in *.
  assert (Hnew : key_equiv comp (stored_key comp k1 c) k2 = false).
  { rewrite (key_equiv_congr comp _ k1 k2 (swo_equiv_transitive comp Hswo));
      [exact H12 | apply stored_key_equiv; assumption]. }
  destruct (key_found comp k2 c) eqn:Hf2.
  - pose proof Hf2 as Hf2'.
    apply key_found_at in Hf2 as (e & He & Heq); [|assumption..].
    rewrite (stored_key_found k2 c e He Hf2').
    assert (Hin : e ∈ c1).
    { apply Set_entries; [assumption..|]. right.
      split; [apply list_elem_of_lookup; eauto|].
      destruct (key_equiv comp (key e) k1) eqn:E; [|reflexivity].
      rewrite <- H12. symmetry.
      apply (swo_equiv_transitive comp Hswo _ (key e));
        [rewrite key_equiv_sym; exact E | exact Heq]. }
    apply list_elem_of_lookup in Hin as [j Hj].
    destruct (equiv_entry_located k2 c1 j e Hswo Hs1 Hj Heq) as [Hp Hf1].
    rewrite <- Hp in Hj. apply (stored_key_found k2 c1 e Hj Hf1).
  - rewrite (stored_key_not_found k2 c Hf2).
    apply stored_key_not_found.
    destruct (key_found comp k2 c1) eqn:Hf1; [|reflexivity]. exfalso.
    apply key_found_at in Hf1 as (e & He & Heq); [|assumption..].
    assert (Hin : e ∈ c1) by (apply list_elem_of_lookup; eauto).
    apply Set_entries in Hin as [->|[Hin _]]; [| |assumption..].
    + simpl in Heq. congruence.
    + assert (Hk : has_key comp k2 c) by (exists e; auto).
      apply (key_found_has_key comp k2 c Htrans Hs) in Hk. congruence.
Qed.

(** X17. On a sorted map, under a strict weak ordering, two calls of [Set]
    for keys that do not compare equal can be made in either order: both
    orders leave the same map. *)
Theorem Set_of_different_keys_commute :
  forall (c : Container) (k1 k2 : Key) (v1 v2 : Value)
         (ppos1 ppos2 : option Z),
    strict_weak_order comp -> sorted comp c -> key_equiv comp k1 k2 = false ->
    exists (r r' : bool * option Z) (c' : Container),
      (Set_ comp k1 v1 ppos1 ;; Set_ comp k2 v2 ppos2) c = Done (r, c') /\
      (Set_ comp k2 v2 ppos2 ;; Set_ comp k1 v1 ppos1) c = Done (r', c') /\
      sorted comp c'.
Proof.
  intros c k1 k2 v1 v2 ppos1 ppos2 Hswo Hs H12.
  pose proof (swo_transitive comp Hswo) as Htrans.
  assert (H21 : key_equiv comp k2 k1 = false) by (rewrite key_equiv_sym; exact H12).
  destruct (Set_leaves k1 v1 ppos1 c Htrans Hs) as [r1 Hrun1].
  destruct (Set_leaves k2 v2 ppos2 c Htrans Hs) as [r2 Hrun2].
  destruct (Set_effect comp Hswo c Hs k1 v1 ppos1 _ _ k1 Hrun1) as [Hs1 _].
  destruct (Set_effect comp Hswo c Hs k2 v2 ppos2 _ _ k2 Hrun2) as [Hs2 _].
  pose proof (stored_key_Set_other k1 v1 k2 c Hswo Hs H12) as Hk2.
  pose proof (stored_key_Set_other k2 v2 k1 c Hswo Hs H21) as Hk1.
  pose proof (fun e => Set_entries k1 v1 c e Hswo Hs) as Hel1.
  pose proof (fun e => Set_entries k2 v2 c e Hswo Hs) as Hel2.
  set (c1 := if key_found comp k1 c then assign_at (count_less comp k1 c) v1 c
             else insert_at (count_less comp k1 c) (KeyVal k1 v1) c) in *.
  set (c2 := if key_found comp k2 c then assign_at (count_less comp k2 c) v2 c
             else insert_at (count_less comp k2 c) (KeyVal k2 v2) c) in *.
  destruct (Set_leaves k2 v2 ppos2 c1 Htrans Hs1) as [r12 Hrun12].
  destruct (Set_leaves k1 v1 ppos1 c2 Htrans Hs2) as [r21 Hrun21].
  destruct (Set_effect comp Hswo c1 Hs1 k2 v2 ppos2 _ _ k2 Hrun12) as [Hs12 _].
  destruct (Set_effect comp Hswo c2 Hs2 k1 v1 ppos1 _ _ k1 Hrun21) as [Hs21 _].
  pose proof (fun e => Set_entries k2 v2 c1 e Hswo Hs1) as Hel12.
  pose proof (fun e => Set_entries k1 v1 c2 e Hswo Hs2) as Hel21.
  rewrite Hk2 in Hel12. rewrite Hk1 in Hel21.
  assert (Hnew1 : key_equiv comp (stored_key comp k1 c) k2 = false).
  { rewrite (key_equiv_congr comp _ k1 k2 (swo_equiv_transitive comp Hswo));
      [exact H12 | apply stored_key_equiv; assumption]. }
  assert (Hnew2 : key_equiv comp (stored_key comp k2 c) k1 = false).
  { rewrite (key_equiv_congr comp _ k2 k1 (swo_equiv_transitive comp Hswo));
      [exact H21 | apply stored_key_equiv; assumption]. }
  exists r12, r21. eexists. split; [unfold bind; rewrite Hrun1; exact Hrun12|].
  split; [|exact Hs12]. unfold bind. rewrite Hrun2, Hrun21. f_equal. f_equal.
  apply sorted_ext; [apply Hswo | exact Htrans | exact Hs21 | exact Hs12 |].
  intros e. rewrite Hel12, Hel21, Hel1, Hel2. split.
  - intros [->|[[->|[Hin Hn2]] Hn1]].
    + right. split; [left; reflexivity | exact Hnew1].
    + left. reflexivity.
    + right. split; [right; split; assumption | exact Hn2].
  - intros [->|[[->|[Hin Hn1]] Hn2]].
    + right. split; [left; reflexivity | exact Hnew2].
    + left. reflexivity.
    + right. split; [right; split; assumption | exact Hn1].
Qed.

(** ** Removal, and lookups on an arbitrary array *)

(** X18. On a sorted map, under a strict weak ordering, a second
    [Remove(key)] right after the first returns false and leaves the map
    of the first. *)
Theorem Remove_twice :
  forall (c : Container) (k : Key) (ppos1 ppos : option Z),
    strict_weak_order comp -> sorted comp c ->
    exists (r : bool * option Z) (c' : Container) (out : option Z),
      Remove comp k ppos1 c = Done (r, c') /\
      (Remove comp k ppos1 ;; Remove comp k ppos) c = Done ((false, out), c').
Proof.
  intros c k ppos1 ppos Hswo Hs. pose proof (swo_transitive comp Hswo) as Htrans.
  pose proof (Remove_run comp Htrans c Hs k ppos1) as Hrun.
  destruct (Remove_effect comp Hswo c Hs k ppos1 _ _ k Hrun) as [Hs1 Hv].
  rewrite key_equiv_refl in Hv by apply Hswo.
  apply key_not_found_lookup_value in Hv.
  eexists _, _, _. split; [exact Hrun|].
  unfold bind. rewrite Hrun. rewrite Remove_run by assumption.
  rewrite Hv. reflexivity.
Qed.

(** X19. On a sorted map, under a strict weak ordering, [RemoveIndex] at
    the index of a stored entry returns, takes one from the count and
    leaves the map sorted; the key of that entry is not found any more,
    and [Get] returns what it did for every key that does not compare
    equal to it. *)
Theorem RemoveIndex_removes_entry :
  forall (c : Container) (pos : Z) (e : Entry) (x : Key) (default : Value),
    strict_weak_order comp -> sorted comp c ->
    0 <= pos -> c !! Z.to_nat pos = Some e ->
    exists c',
      RemoveIndex pos c = Done (tt, c') /\
      sorted comp c' /\ S (length c') = length c /\
      Find comp (key e) c' = Done (NULL, c') /\
      FindIndex comp (key e) c' = Done (-1, c') /\
      (key_equiv comp (key e) x = false ->
       exists g, Get comp x default c = Done (g, c) /\
                 Get comp x default c' = Done (g, c')).
Proof.
  intros c pos e x default Hswo Hs Hpos He.
  pose proof (swo_transitive comp Hswo) as Htrans.
  pose proof (RemoveIndex_run c pos e Hpos He) as Hrun.
  destruct (RemoveIndex_effect comp Hswo c Hs pos e _ _ (key e) He Hrun) as [Hs1 Hv].
  rewrite key_equiv_refl in Hv by apply Hswo.
  exists (delete (Z.to_nat pos) c). split; [exact Hrun|]. split; [exact Hs1|].
  split; [rewrite length_delete by eauto; apply lookup_lt_Some in He; lia|].
  pose proof Hv as Hnf. apply key_not_found_lookup_value in Hnf.
  split; [rewrite Find_run by assumption; rewrite Hnf; reflexivity|].
  split; [rewrite FindIndex_run by assumption; rewrite Hnf; reflexivity|].
  intros Hex.
  destruct (RemoveIndex_effect comp Hswo c Hs pos e _ _ x He Hrun) as [_ Hx].
  rewrite Hex in Hx.
  exists (match lookup_value comp x c with Some w => w | None => default end).
  split; [apply Get_lookup_value; assumption|].
  rewrite Get_lookup_value by assumption. rewrite Hx. reflexivity.
Qed.

(** X20. Whatever the array (sorted or not) and the comparator are, a
    lookup never returns a wrong entry: the pointer of [Find] and the
    index of [FindIndex] are [NULL] and -1, or they lead to an entry whose
    key compares equal to the key asked for, and [Get] returns the default
    or the value of such an entry. *)
Theorem lookups_return_equal_keys_only :
  forall (c : Container) (k : Key) (default : Value),
    exists (p : KeyValPtr) (i : Z) (g : Value),
      Find comp k c = Done (p, c) /\
      FindIndex comp k c = Done (i, c) /\
      Get comp k default c = Done (g, c) /\
      ((p = NULL /\ i = -1 /\ g = default) \/
       (exists e, p = ElemPtr i /\ 0 <= i /\ c !! Z.to_nat i = Some e /\
                  key_equiv comp (key e) k = true /\ g = value e)).
Proof.
  intros c k default. destruct (FirstGE_any k c) as (r & Hrun & Hrange & _ & Hat).
  assert (Hloc : forall A (f : Z -> bool -> M Container A),
            (pos <- FirstGE comp k ;; here <- is_at comp k pos ;; f pos here) c =
            f r (match c !! Z.to_nat r with
                 | Some e => negb (comp k (key e))
                 | None => false
                 end) c).
  { intros A f. unfold bind at 1. rewrite Hrun. unfold bind at 1.
    rewrite is_at_run by lia. reflexivity. }
  unfold Find, FindIndex, Get. rewrite !Hloc.
  destruct (c !! Z.to_nat r) as [e|] eqn:He.
  - destruct (comp k (key e)) eqn:Hke; simpl.
    + eexists _, _, _. repeat (split; [reflexivity|]). left. auto.
    + unfold bind. rewrite (container_at_lookup c r e) by (lia || exact He).
      eexists _, _, _. repeat (split; [reflexivity|]). right.
      exists e. split; [reflexivity|]. split; [lia|]. split; [exact He|].
      split; [|reflexivity]. apply key_equiv_true. split; [|exact Hke].
      destruct Hat as [Hn|(e0 & He0 & Hc0)].
      * apply lookup_lt_Some in He. lia.
      * injection He0 as <-. exact Hc0.
  - simpl. eexists _, _, _. repeat (split; [reflexivity|]). left. auto.
Qed.

End More.

(** ** The further properties at the sample map *)

Lemma sample_map_sorted : sorted idLess sample_map.
Proof. apply sortedb_spec. reflexivity. Qed.

Lemma sample_map_has_key k :
  key_found idLess k sample_map = true -> has_key idLess k sample_map.
Proof. apply key_found_has_key; [exact idLess_transitive | exact sample_map_sorted]. Qed.

Lemma sample_map_no_key k :
  key_found idLess k sample_map = false -> ~ has_key idLess k sample_map.
Proof.
  intros Hf Hk.
  apply (key_found_has_key idLess k _ idLess_transitive sample_map_sorted) in Hk.
  congruence.
Qed.

Lemma Remove_present_removes_entry_witness :
  comp_transitive idLess /\ sorted idLess sample_map /\
  has_key idLess 3 sample_map /\
  exists (pos : nat) (e : idKeyVal Z string),
    sample_map !! pos = Some e /\ key_equiv idLess (key e) 3 = true /\
    FindIndex idLess 3 sample_map = Done (Z.of_nat pos, sample_map) /\
    Remove idLess 3 (Some (-1)) sample_map =
      Done ((true, store_pos (Some (-1)) (Z.of_nat pos)), delete pos sample_map) /\
    sorted idLess (delete pos sample_map) /\
    S (length (delete pos sample_map)) = length sample_map /\
    (forall j, (j < pos)%nat -> delete pos sample_map !! j = sample_map !! j) /\
    (forall j, (pos <= j)%nat -> delete pos sample_map !! j = sample_map !! S j).
Proof.
  split; [exact idLess_transitive|]. split; [exact sample_map_sorted|].
  split; [apply sample_map_has_key; reflexivity|].
  apply (Remove_present_removes_entry idLess sample_map 3 (Some (-1))).
  - exact idLess_transitive.
  - exact sample_map_sorted.
  - apply sample_map_has_key. reflexivity.
Defined.

Lemma stored_entry_is_found_witness :
  strict_weak_order idLess /\ sorted idLess sample_map /\
  sample_map !! 2%nat = Some (kv 5 "c") /\
  key_equiv idLess (key (kv 5 "c")) 5 = true /\
  key_equiv idLess (key (kv 5 "c")) (key (kv 5 "c")) = true /\
  FirstGE idLess 5 sample_map = Done (Z.of_nat 2, sample_map) /\
  FindIndex idLess 5 sample_map = Done (Z.of_nat 2, sample_map) /\
  Find idLess 5 sample_map = Done (ElemPtr (Z.of_nat 2), sample_map) /\
  deref (ElemPtr (Z.of_nat 2)) sample_map = Done (kv 5 "c", sample_map) /\
  Get idLess 5 "none" sample_map = Done (value (kv 5 "c"), sample_map).
Proof.
  split; [exact idLess_strict_weak_order|]. split; [exact sample_map_sorted|].
  split; [reflexivity|]. split; [reflexivity|].
  apply (stored_entry_is_found idLess sample_map 2 (kv 5 "c") 5 "none").
  - exact idLess_strict_weak_order.
  - exact sample_map_sorted.
  - reflexivity.
  - reflexivity.
Defined.

Lemma operator_index_finds_or_default_witness :
  comp_transitive idLess /\ sorted idLess sample_map /\
  exists (pos : nat) (c' : list (idKeyVal Z string)) (e : idKeyVal Z string),
    operator_index idLess EmptyString 4 sample_map =
      Done (ElemPtr (Z.of_nat pos), c') /\
    deref (ElemPtr (Z.of_nat pos)) c' = Done (e, c') /\
    sorted idLess c' /\
    (has_key idLess 4 sample_map ->
       c' = sample_map /\ key_equiv idLess (key e) 4 = true) /\
    (~ has_key idLess 4 sample_map ->
       c' = insert_at pos (KeyVal 4 EmptyString) sample_map /\
       e = KeyVal 4 EmptyString /\ length c' = S (length sample_map)).
Proof.
  split; [exact idLess_transitive|]. split; [exact sample_map_sorted|].
  apply (operator_index_finds_or_default idLess EmptyString sample_map 4).
  - exact idLess_transitive.
  - exact sample_map_sorted.
Defined.

Lemma Insert_asserts_hold_only_at_FirstGE_position_witness :
  comp_transitive idLess /\ sorted idLess sample_map /\
  exists p,
    FirstGE idLess 4 sample_map = Done (p, sample_map) /\
    ((0 <= 3 <= Z.of_nat (length sample_map) /\
      (3 = 0 \/
       exists e, sample_map !! Z.to_nat (3 - 1) = Some e /\
                 idLess (key e) 4 = true) /\
      (3 = Z.of_nat (length sample_map) \/
       exists e, sample_map !! Z.to_nat 3 = Some e /\ idLess (key e) 4 = false))
     <-> 3 = p) /\
    Insert idLess 4 "x" p sample_map =
      Done (tt, insert_at (Z.to_nat p) (KeyVal 4 "x") sample_map).
Proof.
  split; [exact idLess_transitive|]. split; [exact sample_map_sorted|].
  apply (Insert_asserts_hold_only_at_FirstGE_position idLess sample_map 4 "x" 3).
  - exact idLess_transitive.
  - exact sample_map_sorted.
Defined.

Lemma Insert_of_present_key_duplicates_witness :
  comp_transitive idLess /\ sorted idLess sample_map /\
  has_key idLess 5 sample_map /\
  exists (pos : nat) (c' : list (idKeyVal Z string)) (e : idKeyVal Z string),
    (p <- FirstGE idLess 5 ;; Insert idLess 5 "x" p) sample_map = Done (tt, c') /\
    sample_map !! pos = Some e /\
    c' !! pos = Some (KeyVal 5 "x") /\ c' !! S pos = Some e /\
    key_equiv idLess 5 (key e) = true /\
    ~ sorted idLess c'.
Proof.
  split; [exact idLess_transitive|]. split; [exact sample_map_sorted|].
  split; [apply sample_map_has_key; reflexivity|].
  apply (Insert_of_present_key_duplicates idLess sample_map 5 "x").
  - exact idLess_transitive.
  - exact sample_map_sorted.
  - apply sample_map_has_key. reflexivity.
Defined.

Lemma absent_key_insertions_agree_witness :
  comp_transitive idLess /\ sorted idLess sample_map /\
  ~ has_key idLess 4 sample_map /\
  exists (c' : list (idKeyVal Z string)),
    (p <- FirstGE idLess 4 ;; Insert idLess 4 "x" p) sample_map = Done (tt, c') /\
    (exists out, Set_ idLess 4 "x" None sample_map = Done ((true, out), c')) /\
    (exists out, AddIfNew idLess 4 "x" None sample_map = Done ((true, out), c')) /\
    ("x" = "x" ->
     exists p, operator_index idLess "x" 4 sample_map = Done (p, c')) /\
    sorted idLess c' /\ length c' = S (length sample_map).
Proof.
  split; [exact idLess_transitive|]. split; [exact sample_map_sorted|].
  split; [apply sample_map_no_key; reflexivity|].
  apply (absent_key_insertions_agree idLess "x" sample_map 4 "x" None).
  - exact idLess_transitive.
  - exact sample_map_sorted.
  - apply sample_map_no_key. reflexivity.
Defined.

Lemma RemoveIndex_of_FindIndex_is_Remove_witness :
  comp_transitive idLess /\ sorted idLess sample_map /\
  has_key idLess 7 sample_map /\
  exists (out : option Z) (c' : list (idKeyVal Z string)),
    Remove idLess 7 None sample_map = Done ((true, out), c') /\
    (i <- FindIndex idLess 7 ;; RemoveIndex i) sample_map = Done (tt, c').
Proof.
  split; [exact idLess_transitive|]. split; [exact sample_map_sorted|].
  split; [apply sample_map_has_key; reflexivity|].
  apply (RemoveIndex_of_FindIndex_is_Remove idLess sample_map 7 None).
  - exact idLess_transitive.
  - exact sample_map_sorted.
  - apply sample_map_has_key. reflexivity.
Defined.

Lemma Set_twice_last_wins_witness :
  strict_weak_order idLess /\ sorted idLess sample_map /\
  exists (added : bool) (out : option Z) (c' : list (idKeyVal Z string)),
    Set_ idLess 4 "y" (Some 0) sample_map = Done ((added, out), c') /\
    (Set_ idLess 4 "x" None ;; Set_ idLess 4 "y" (Some 0)) sample_map =
      Done ((false, out), c').
Proof.
  split; [exact idLess_strict_weak_order|]. split; [exact sample_map_sorted|].
  apply (Set_twice_last_wins idLess sample_map 4 "x" "y" None (Some 0)).
  - exact idLess_strict_weak_order.
  - exact sample_map_sorted.
Defined.

Lemma Set_then_Remove_restores_witness :
  strict_weak_order idLess /\ sorted idLess sample_map /\
  ~ has_key idLess 4 sample_map /\
  exists out,
    (Set_ idLess 4 "x" None ;; Remove idLess 4 (Some 0)) sample_map =
      Done ((true, out), sample_map).
Proof.
  split; [exact idLess_strict_weak_order|]. split; [exact sample_map_sorted|].
  split; [apply sample_map_no_key; reflexivity|].
  apply (Set_then_Remove_restores idLess sample_map 4 "x" None (Some 0)).
  - exact idLess_strict_weak_order.
  - exact sample_map_sorted.
  - apply sample_map_no_key. reflexivity.
Defined.

Lemma Remove_then_Set_restores_witness :
  strict_weak_order idLess /\ sorted idLess sample_map /\
  sample_map !! 1%nat = Some (kv 3 "b") /\
  (Remove idLess (key (kv 3 "b")) None ;;
   Set_ idLess (key (kv 3 "b")) (value (kv 3 "b")) (Some 0)) sample_map =
    Done ((true, Some (Z.of_nat 1)), sample_map).
Proof.
  split; [exact idLess_strict_weak_order|]. split; [exact sample_map_sorted|].
  split; [reflexivity|].
  apply (Remove_then_Set_restores idLess sample_map 1 (kv 3 "b") None 0).
  - exact idLess_strict_weak_order.
  - exact sample_map_sorted.
  - reflexivity.
Defined.

Lemma other_keys_keep_their_value_witness :
  strict_weak_order idLess /\ sorted idLess sample_map /\
  key_equiv idLess 4 5 = false /\
  exists g,
    Get idLess 5 "none" sample_map = Done (g, sample_map) /\
    (exists c', (Set_ idLess 4 "x" None ;; Get idLess 5 "none") sample_map =
                  Done (g, c')) /\
    (exists c', (AddIfNew idLess 4 "x" None ;; Get idLess 5 "none") sample_map =
                  Done (g, c')) /\
    (exists c', (operator_index idLess EmptyString 4 ;; Get idLess 5 "none")
                  sample_map = Done (g, c')) /\
    (exists c', (Remove idLess 4 None ;; Get idLess 5 "none") sample_map =
                  Done (g, c')).
Proof.
  split; [exact idLess_strict_weak_order|]. split; [exact sample_map_sorted|].
  split; [reflexivity|].
  apply (other_keys_keep_their_value idLess EmptyString sample_map 4 5 "x" "none" None).
  - exact idLess_strict_weak_order.
  - exact sample_map_sorted.
  - reflexivity.
Defined.

Lemma FirstGE_monotone_witness :
  strict_weak_order idLess /\ sorted idLess sample_map /\
  exists p1 p2,
    FirstGE idLess 3 sample_map = Done (p1, sample_map) /\
    FirstGE idLess 6 sample_map = Done (p2, sample_map) /\
    (idLess 3 6 = true -> p1 <= p2) /\
    (idLess 3 6 = true -> has_key idLess 3 sample_map -> p1 < p2) /\
    (key_equiv idLess 3 6 = true -> p1 = p2).
Proof.
  split; [exact idLess_strict_weak_order|]. split; [exact sample_map_sorted|].
  apply (FirstGE_monotone idLess sample_map 3 6).
  - exact idLess_strict_weak_order.
  - exact sample_map_sorted.
Defined.

Lemma reported_position_is_FindIndex_witness :
  strict_weak_order idLess /\ sorted idLess sample_map /\
  (exists added pos c',
     Set_ idLess 4 "x" (Some 0) sample_map = Done ((added, Some pos), c') /\
     FindIndex idLess 4 c' = Done (pos, c')) /\
  (exists added pos c',
     AddIfNew idLess 4 "x" (Some 0) sample_map = Done ((added, Some pos), c') /\
     FindIndex idLess 4 c' = Done (pos, c')).
Proof.
  split; [exact idLess_strict_weak_order|]. split; [exact sample_map_sorted|].
  apply (reported_position_is_FindIndex idLess sample_map 4 "x" 0).
  - exact idLess_strict_weak_order.
  - exact sample_map_sorted.
Defined.

Lemma AddIfNew_twice_first_wins_witness :
  strict_weak_order idLess /\ sorted idLess sample_map /\
  exists (r : bool * option Z) (c' : list (idKeyVal Z string))
         (out : option Z) (g : string),
    AddIfNew idLess 4 "x" None sample_map = Done (r, c') /\
    (AddIfNew idLess 4 "x" None ;; AddIfNew idLess 4 "y" (Some 0)) sample_map =
      Done ((false, out), c') /\
    Get idLess 4 "x" sample_map = Done (g, sample_map) /\
    Get idLess 4 "none" c' = Done (g, c').
Proof.
  split; [exact idLess_strict_weak_order|]. split; [exact sample_map_sorted|].
  apply (AddIfNew_twice_first_wins idLess sample_map 4 "x" "y" "none" None (Some 0)).
  - exact idLess_strict_weak_order.
  - exact sample_map_sorted.
Defined.

Lemma Set_of_different_keys_commute_witness :
  strict_weak_order idLess /\ sorted idLess sample_map /\
  key_equiv idLess 4 5 = false /\
  exists (r r' : bool * option Z) (c' : list (idKeyVal Z string)),
    (Set_ idLess 4 "x" None ;; Set_ idLess 5 "y" None) sample_map = Done (r, c') /\
    (Set_ idLess 5 "y" None ;; Set_ idLess 4 "x" None) sample_map = Done (r', c') /\
    sorted idLess c'.
Proof.
  split; [exact idLess_strict_weak_order|]. split; [exact sample_map_sorted|].
  split; [reflexivity|].
  apply (Set_of_different_keys_commute idLess sample_map 4 5 "x" "y" None None).
  - exact idLess_strict_weak_order.
  - exact sample_map_sorted.
  - reflexivity.
Defined.

Lemma Remove_twice_witness :
  strict_weak_order idLess /\ sorted idLess sample_map /\
  exists (r : bool * option Z) (c' : list (idKeyVal Z string)) (out : option Z),
    Remove idLess 3 None sample_map = Done (r, c') /\
    (Remove idLess 3 None ;; Remove idLess 3 (Some 0)) sample_map =
      Done ((false, out), c').
Proof.
  split; [exact idLess_strict_weak_order|]. split; [exact sample_map_sorted|].
  apply (Remove_twice idLess sample_map 3 None (Some 0)).
  - exact idLess_strict_weak_order.
  - exact sample_map_sorted.
Defined.

Lemma RemoveIndex_removes_entry_witness :
  strict_weak_order idLess /\ sorted idLess sample_map /\
  0 <= 1 /\ sample_map !! Z.to_nat 1 = Some (kv 3 "b") /\
  exists c',
    RemoveIndex 1 sample_map = Done (tt, c') /\
    sorted idLess c' /\ S (length c') = length sample_map /\
    Find idLess (key (kv 3 "b")) c' = Done (NULL, c') /\
    FindIndex idLess (key (kv 3 "b")) c' = Done (-1, c') /\
    (key_equiv idLess (key (kv 3 "b")) 5 = false ->
     exists g, Get idLess 5 "none" sample_map = Done (g, sample_map) /\
               Get idLess 5 "none" c' = Done (g, c')).
Proof.
  split; [exact idLess_strict_weak_order|]. split; [exact sample_map_sorted|].
  split; [lia|]. split; [reflexivity|].
  apply (RemoveIndex_removes_entry idLess sample_map 1 (kv 3 "b") 5 "none").
  - exact idLess_strict_weak_order.
  - exact sample_map_sorted.
  - lia.
  - reflexivity.
Defined.

End FlatMap.
